(** * Parent/child chunking, ingestion and RRF retrieval of bsparx/fyp

    A shallow embedding of
    - [textSplitterForRag] (utils/textSplitterForRag.ts),
    - [embedAndStoreDocument], [embedAndStorePatientDocument],
      [deleteDocumentVectors], [querySimilarDocuments], [getParentTexts],
      [rerankDocuments] (utils/embeddings.ts),
    - [searchVectorDatabase] (dashboard/database/actions.ts).

    JavaScript strings are sequences of code units; they are embedded as
    [string], one [ascii] standing for one code unit (the splitter only
    compares code units with line feed, '#' and space).  JavaScript numbers
    that carry scores are embedded as exact rationals [Q]; lengths, indices
    and [maxLength] are integers. *)

From Stdlib Require Import List Bool Arith ZArith QArith Qabs Lia Lqa.
From Stdlib Require Import Ascii String DecimalString Permutation Sorted.
Import ListNotations.

(** ** JavaScript primitives used by the code *)

Module JS.

Local Open Scope string_scope.

(** [s.length] *)
Definition len (s : string) : Z := Z.of_nat (String.length s).

(** Truthiness of a string: only the empty string is falsy. *)
Definition truthy (s : string) : bool :=
  match s with
  | EmptyString => false
  | String _ _ => true
  end.

(** [content.split(new RegExp("(?=" + header + ")"))], after RegExp.prototype
    [Symbol.split]: [acc] is the text between the last split point [p] and the
    scan position [q], [rest] the text from [q] on.  The look-ahead matches
    the empty string at [q] exactly when [header] is a prefix of [rest]; an
    empty match at [q = p] is skipped, any other one closes the piece. *)
Fixpoint split_scan (header acc rest : string) : list string :=
  match rest with
  | EmptyString => [acc]
  | String c rest' =>
      if truthy acc && String.prefix header rest
      then acc :: split_scan header (String c EmptyString) rest'
      else split_scan header (acc ++ String c EmptyString) rest'
  end.

Definition split_lookahead (header content : string) : list string :=
  match content with
  | EmptyString => if String.prefix header EmptyString then [] else [content]
  | _ => split_scan header EmptyString content
  end.

(** [xs.map((x, i) => f(x, i))], the index counted from [i]. *)
Fixpoint mapi_from {A B} (f : A -> nat -> B) (xs : list A) (i : nat)
  : list B :=
  match xs with
  | [] => []
  | x :: xs' => f x i :: mapi_from f xs' (S i)
  end.

Definition mapi {A B} (f : A -> nat -> B) (xs : list A) : list B :=
  mapi_from f xs 0.

(** [String(n)] for a non-negative integer. *)
Definition Number_toString (n : nat) : string :=
  NilZero.string_of_uint (Nat.to_uint n).

(** [segments.join("")] *)
Definition join (segments : list string) : string :=
  String.concat EmptyString segments.

(** White space of [String.prototype.trim] among the code units below 256. *)
Definition is_whitespace (c : ascii) : bool :=
  let n := nat_of_ascii c in
  ((9 <=? n)%nat && (n <=? 13)%nat) || (n =? 32)%nat || (n =? 160)%nat.

Fixpoint trimStart (s : string) : string :=
  match s with
  | EmptyString => EmptyString
  | String c s' => if is_whitespace c then trimStart s' else s
  end.

Fixpoint trimEnd (s : string) : string :=
  match s with
  | EmptyString => EmptyString
  | String c s' =>
      let t := trimEnd s' in
      if is_whitespace c && negb (truthy t) then EmptyString else String c t
  end.

(** [s.trim()] *)
Definition trim (s : string) : string := trimEnd (trimStart s).

(** [a < b] on numbers *)
Definition Qltb (a b : Q) : bool := negb (Qle_bool b a).

(** [Math.max(a, b)] *)
Definition Math_max (a b : Q) : Q := if Qle_bool a b then b else a.

(** [Math.abs(a)] *)
Definition Math_abs (a : Q) : Q := Qabs a.

(** [Array.prototype.sort(comparefn)].  ECMAScript fixes the outcome only
    for a consistent comparator (sorted, and stable); for any other the order
    is implementation-defined.  The model is the insertion sort: each element
    in turn is put behind the sorted prefix and moved to the left past the
    elements it compares below.  [sorted_rev] is the sorted prefix, last
    element first. *)
Fixpoint sort_insert {A} (comparefn : A -> A -> Q) (x : A)
    (sorted_rev : list A) : list A :=
  match sorted_rev with
  | [] => [x]
  | y :: rest =>
      if Qltb (comparefn x y) 0 then y :: sort_insert comparefn x rest
      else x :: sorted_rev
  end.

Definition Array_sort {A} (comparefn : A -> A -> Q) (l : list A) : list A :=
  rev (fold_left (fun sorted_rev x => sort_insert comparefn x sorted_rev)
         l []).

(** A [Map] with string keys, as the list of its entries in insertion
    order. [Map_set] on a present key keeps the position of the entry. *)
Fixpoint Map_get {V} (k : string) (m : list (string * V)) : option V :=
  match m with
  | [] => None
  | (k', v) :: m' => if String.eqb k k' then Some v else Map_get k m'
  end.

Fixpoint Map_set {V} (k : string) (v : V) (m : list (string * V))
  : list (string * V) :=
  match m with
  | [] => [(k, v)]
  | (k', v') :: m' =>
      if String.eqb k k' then (k, v) :: m' else (k', v') :: Map_set k v m'
  end.

End JS.

(** ** utils/textSplitterForRag.ts *)

Module Splitter.

Import JS.
Local Open Scope string_scope.

Definition LF : ascii := ascii_of_nat 10.

Definition headers : list string :=
  [ String LF "# "; String LF "## "; String LF "### "; String LF "#### " ].

(** The [for] loop of [splitByHeader] over [parts], with the two loop
    variables [result] and [accumulated]; [recurse] is the call
    [splitByHeader(part, headerLevel + 1)], which is [None] when it does not
    return. The final [if (accumulated)] push ends the loop. *)
Fixpoint accumulate_parts (recurse : string -> option (list string))
    (maxLength : Z) (parts result : list string) (accumulated : string)
  : option (list string) :=
  match parts with
  | [] =>
      Some (if truthy accumulated then (result ++ [accumulated])%list
            else result)
  | part :: parts' =>
      if (maxLength <? len part)%Z then
        let flushed :=
          if truthy accumulated then (result ++ [accumulated])%list
          else result in
        match recurse part with
        | None => None
        | Some sub =>
            accumulate_parts recurse maxLength parts' (flushed ++ sub)%list
              EmptyString
        end
      else if truthy accumulated
              && (maxLength <? len accumulated + len part)%Z then
        accumulate_parts recurse maxLength parts'
          (result ++ [accumulated])%list part
      else
        accumulate_parts recurse maxLength parts' result (accumulated ++ part)
  end.

(** [splitByHeader(content, headerLevel)].  [depth] is the number of nested
    recursive calls still allowed below this call; a recursive call with no
    depth left yields [None]. *)
Fixpoint splitByHeader (depth : nat) (maxLength : Z) (content : string)
    (headerLevel : nat) : option (list string) :=
  if (len content <=? maxLength)%Z then Some [content]
  else if (List.length headers <=? headerLevel)%nat then Some [content]
  else
    let recurse : string -> option (list string) :=
      match depth with
      | O => fun _ => None
      | S depth' =>
          fun c => splitByHeader depth' maxLength c (headerLevel + 1)
      end in
    let header := nth headerLevel headers EmptyString in
    let parts := split_lookahead header content in
    if (List.length parts =? 1)%nat then recurse content
    else accumulate_parts recurse maxLength parts [] EmptyString.

(** [textSplitterForRag(text, maxLength)]: the call [splitByHeader(text, 0)]
    with as many nested calls allowed as there are heading levels.
    [maxLength] is an integer; lengths being integers, a fractional bound
    compares like its floor. *)
Definition textSplitterForRag (text : string) (maxLength : Z)
  : option (list string) :=
  splitByHeader (List.length headers) maxLength text 0.

Definition default_maxLength : Z := 4000.

End Splitter.

(** ** Effects: shared state, exceptions and calls that do not return *)

Module Effects.

Inductive outcome (A : Type) : Type :=
| Ok (a : A)
| Throw (e : string)
| Diverge.

Arguments Ok {A} a.
Arguments Throw {A} e.
Arguments Diverge {A}.

Definition M (W A : Type) : Type := W -> outcome A * W.

Definition ret {W A} (a : A) : M W A := fun w => (Ok a, w).

Definition bind {W A B} (m : M W A) (k : A -> M W B) : M W B :=
  fun w =>
    match m w with
    | (Ok a, w') => k a w'
    | (Throw e, w') => (Throw e, w')
    | (Diverge, w') => (Diverge, w')
    end.

Definition throw {W A} (e : string) : M W A := fun w => (Throw e, w).

Definition diverge {W A} : M W A := fun w => (Diverge, w).

(** [try { body } catch (e) { handler }]: the effects of [body] up to the
    throw are kept. *)
Definition try_catch {W A} (body : M W A) (handler : string -> M W A)
  : M W A :=
  fun w =>
    match body w with
    | (Throw e, w') => handler e w'
    | r => r
    end.

Definition gets {W A} (f : W -> A) : M W A := fun w => (Ok (f w), w).

Definition modify {W} (f : W -> W) : M W unit := fun w => (Ok tt, f w).

(** The calls [f(x, i)] for the elements of [xs], one after the other, with
    the index counted from [i]. *)
Fixpoint forEachM {W A} (f : A -> nat -> M W unit) (xs : list A) (i : nat)
  : M W unit :=
  match xs with
  | [] => ret tt
  | x :: xs' => bind (f x i) (fun _ => forEachM f xs' (S i))
  end.

(** [xs.map(f)] for a callback that may throw. *)
Fixpoint mapM {W A B} (f : A -> M W B) (xs : list A) : M W (list B) :=
  match xs with
  | [] => ret []
  | x :: xs' =>
      bind (f x) (fun y => bind (mapM f xs') (fun ys => ret (y :: ys)))
  end.

Module Notations.
  Notation "x <- c1 ;; c2" := (bind c1 (fun x => c2))
    (at level 61, c1 at next level, right associativity).
  Notation "c1 ;; c2" := (bind c1 (fun _ => c2))
    (at level 61, right associativity).
End Notations.

End Effects.

(** ** Data model: relational rows, vector entries, collaborators *)

Module Model.

Import Effects.
Local Open Scope string_scope.

Inductive RagSubtype : Type := MEDICINE | DISEASE.

(** [ragSubtype.toLowerCase()] *)
Definition toLowerCase (t : RagSubtype) : string :=
  match t with
  | MEDICINE => "medicine"
  | DISEASE => "disease"
  end.

Record Document : Type := {
  doc_id : string;
  doc_isIngested : bool;
  doc_ragSubtype : option RagSubtype
}.

Record ParentChunk : Type := {
  pc_id : string;
  pc_documentId : string;
  pc_parentIndex : nat;
  pc_parentText : string
}.

Record RagChunk : Type := {
  rc_documentId : string;
  rc_parentChunkId : string;
  rc_chunkIndex : nat;
  rc_chunkText : option string;
  rc_pineconeId : string
}.

Definition Embedding : Type := list Q.

(** Pinecone metadata is an open map; the fields the code writes or reads,
    each possibly absent. *)
Record Metadata : Type := {
  md_documentId : option string;
  md_documentTitle : option string;
  md_parentChunkId : option string;
  md_childText : option string;
  md_parentIndex : option nat;
  md_childIndex : option nat;
  md_patient : option bool;
  md_patientId : option string;
  md_type : option string
}.

Record VectorEntry : Type := {
  ve_id : string;
  ve_values : option Embedding;
  ve_metadata : Metadata
}.

Record Match : Type := {
  m_id : string;
  m_score : option Q;
  m_metadata : option Metadata
}.

(** The two shapes of metadata filter the code builds:
    [{ type: { $in: tags } }] and [{ type: tag }]. *)
Inductive Filter : Type :=
| TypeIn (tags : list string)
| TypeEq (tag : string).

Record RerankItem : Type := {
  ri_document : option string;
  ri_relevanceScore : option Q;
  ri_index : option nat
}.

Inductive LogLine : Type :=
| Log (msg : string)
| Error (msg : string).

(** The calls to external collaborators, in the order they are issued. *)
Inductive Call : Type :=
| DocumentFindUnique
| DocumentUpdate
| ParentChunkCreate
| ParentChunkDeleteMany
| ParentChunkFindMany
| RagChunkCreateMany
| RagChunkDeleteMany
| RagChunkFindMany
| SplitText
| VoyageEmbed
| VoyageRerank
| IndexUpsert
| IndexQuery
| IndexDeleteMany.

(** What the collaborators answer, and when they fail: [faults n] says that
    the call issued after [n] recorded calls throws. *)
Record Env : Type := {
  faults : nat -> bool;
  idSupply : nat -> string;
  splitText : string -> list string;
  embed : list string -> string -> option (list (option Embedding));
  rerank : string -> list string -> nat -> option (list RerankItem);
  similarity : Embedding -> option Embedding -> Q
}.

Record World : Type := {
  documents : list Document;
  parentChunks : list ParentChunk;
  ragChunks : list RagChunk;
  pinecone : list VectorEntry;
  console : list LogLine;
  calls : list Call
}.

Definition with_documents (ds : list Document) (w : World) : World :=
  {| documents := ds; parentChunks := parentChunks w;
     ragChunks := ragChunks w; pinecone := pinecone w;
     console := console w; calls := calls w |}.

Definition with_parentChunks (ps : list ParentChunk) (w : World) : World :=
  {| documents := documents w; parentChunks := ps;
     ragChunks := ragChunks w; pinecone := pinecone w;
     console := console w; calls := calls w |}.

Definition with_ragChunks (rs : list RagChunk) (w : World) : World :=
  {| documents := documents w; parentChunks := parentChunks w;
     ragChunks := rs; pinecone := pinecone w;
     console := console w; calls := calls w |}.

Definition with_pinecone (vs : list VectorEntry) (w : World) : World :=
  {| documents := documents w; parentChunks := parentChunks w;
     ragChunks := ragChunks w; pinecone := vs;
     console := console w; calls := calls w |}.

Definition with_console (ls : list LogLine) (w : World) : World :=
  {| documents := documents w; parentChunks := parentChunks w;
     ragChunks := ragChunks w; pinecone := pinecone w;
     console := ls; calls := calls w |}.

Definition with_calls (cs : list Call) (w : World) : World :=
  {| documents := documents w; parentChunks := parentChunks w;
     ragChunks := ragChunks w; pinecone := pinecone w;
     console := console w; calls := cs |}.

(** The durable state: the three tables and the vector index. *)
Definition stores (w : World)
  : list Document * list ParentChunk * list RagChunk * list VectorEntry :=
  (documents w, parentChunks w, ragChunks w, pinecone w).

Definition console_log (msg : string) : M World unit :=
  modify (fun w => with_console (console w ++ [Log msg]) w).

Definition console_error (msg : string) : M World unit :=
  modify (fun w => with_console (console w ++ [Error msg]) w).

Definition mem_string (s : string) (l : list string) : bool :=
  existsb (String.eqb s) l.

End Model.

(** ** The collaborators: Prisma tables, Pinecone index, Voyage, LangChain *)

Module Collaborators.

Import JS Effects Model.
Local Open Scope string_scope.

Section WithEnv.

Variable env : Env.

(** An awaited call to a collaborator: it is recorded, and either throws
    (as [faults] says) or takes effect. *)
Definition external {A} (c : Call) (op : M World A) : M World A :=
  fun w =>
    let w' := with_calls (calls w ++ [c]) w in
    if faults env (List.length (calls w)) then
      (Throw "collaborator call failed", w')
    else op w'.

Definition has_document (id : string) (w : World) : bool :=
  existsb (fun d => String.eqb (doc_id d) id) (documents w).

(** [prisma.document.findUnique({ where: { id } })] *)
Definition document_findUnique (id : string) : M World (option Document) :=
  external DocumentFindUnique
    (gets (fun w => find (fun d => String.eqb (doc_id d) id) (documents w))).

(** [prisma.document.update({ where: { id }, data: { isIngested } })];
    throws when no row has this id. *)
Definition document_update (id : string) (isIngested : bool)
  : M World unit :=
  external DocumentUpdate
    (fun w =>
       if has_document id w then
         (Ok tt,
          with_documents
            (map (fun d =>
                    if String.eqb (doc_id d) id then
                      {| doc_id := doc_id d; doc_isIngested := isIngested;
                         doc_ragSubtype := doc_ragSubtype d |}
                    else d)
               (documents w)) w)
       else (Throw "Record to update not found", w)).

(** [prisma.parentChunk.create({ data })]: the row gets a generated id,
    taken from [idSupply]; the foreign key to Document and the unique index
    on (documentId, parentIndex) of the migration are enforced. *)
Definition parentChunk_create (documentId : string) (parentIndex : nat)
    (parentText : string) : M World ParentChunk :=
  external ParentChunkCreate
    (fun w =>
       let row := {| pc_id := idSupply env (List.length (calls w));
                     pc_documentId := documentId;
                     pc_parentIndex := parentIndex;
                     pc_parentText := parentText |} in
       if has_document documentId w
          && negb (existsb
                     (fun p => String.eqb (pc_documentId p) documentId
                               && (pc_parentIndex p =? parentIndex)%nat)
                     (parentChunks w))
       then (Ok row, with_parentChunks (parentChunks w ++ [row]) w)
       else (Throw "constraint failed on ParentChunk", w)).

(** [prisma.parentChunk.deleteMany({ where: { documentId } })]; the RagChunk
    rows of a deleted parent go with it (ON DELETE CASCADE). *)
Definition parentChunk_deleteMany (documentId : string) : M World unit :=
  external ParentChunkDeleteMany
    (modify (fun w =>
       let gone p := String.eqb (pc_documentId p) documentId in
       let goneIds := map pc_id (filter gone (parentChunks w)) in
       with_ragChunks
         (filter (fun r => negb (mem_string (rc_parentChunkId r) goneIds))
            (ragChunks w))
         (with_parentChunks
            (filter (fun p => negb (gone p)) (parentChunks w)) w))).

(** [prisma.parentChunk.findMany({ where: { id: { in: ids } } })] *)
Definition parentChunk_findMany (ids : list string)
  : M World (list ParentChunk) :=
  external ParentChunkFindMany
    (gets (fun w =>
       filter (fun p => mem_string (pc_id p) ids) (parentChunks w))).

(** [prisma.ragChunk.deleteMany({ where: { documentId } })] *)
Definition ragChunk_deleteMany (documentId : string) : M World unit :=
  external RagChunkDeleteMany
    (modify (fun w =>
       with_ragChunks
         (filter (fun r => negb (String.eqb (rc_documentId r) documentId))
            (ragChunks w)) w)).

(** [prisma.ragChunk.findMany({ where: { documentId } })] *)
Definition ragChunk_findMany (documentId : string)
  : M World (list RagChunk) :=
  external RagChunkFindMany
    (gets (fun w =>
       filter (fun r => String.eqb (rc_documentId r) documentId)
         (ragChunks w))).

Fixpoint distinct (l : list string) : bool :=
  match l with
  | [] => true
  | x :: l' => negb (mem_string x l') && distinct l'
  end.

(** [prisma.ragChunk.createMany({ data })]: all rows or none; the foreign
    keys and the unique index on pineconeId are enforced, and chunkText is
    required. *)
Definition ragChunk_createMany (rows : list RagChunk) : M World unit :=
  external RagChunkCreateMany
    (fun w =>
       if forallb
            (fun r =>
               has_document (rc_documentId r) w
               && existsb (fun p => String.eqb (pc_id p) (rc_parentChunkId r))
                    (parentChunks w)
               && match rc_chunkText r with Some _ => true | None => false end)
            rows
          && distinct (map rc_pineconeId (ragChunks w ++ rows))
       then (Ok tt, with_ragChunks (ragChunks w ++ rows) w)
       else (Throw "constraint failed on RagChunk", w)).

(** [index.upsert(vectors)]: an entry replaces the one with its id. *)
Fixpoint upsert_one (v : VectorEntry) (idx : list VectorEntry)
  : list VectorEntry :=
  match idx with
  | [] => [v]
  | u :: idx' =>
      if String.eqb (ve_id u) (ve_id v) then v :: idx'
      else u :: upsert_one v idx'
  end.

Definition index_upsert (vectors : list VectorEntry) : M World unit :=
  external IndexUpsert
    (modify (fun w =>
       with_pinecone
         (fold_left (fun idx v => upsert_one v idx) vectors (pinecone w)) w)).

(** [index.deleteMany(ids)] *)
Definition index_deleteMany (ids : list string) : M World unit :=
  external IndexDeleteMany
    (modify (fun w =>
       with_pinecone
         (filter (fun v => negb (mem_string (ve_id v) ids)) (pinecone w))
         w)).

Definition filter_matches (f : option Filter) (md : Metadata) : bool :=
  match f with
  | None => true
  | Some (TypeIn tags) =>
      match md_type md with
      | Some t => mem_string t tags
      | None => false
      end
  | Some (TypeEq tag) =>
      match md_type md with
      | Some t => String.eqb t tag
      | None => false
      end
  end.

Definition score_of (m : Match) : Q :=
  match m_score m with Some s => s | None => 0%Q end.

(** Best similarity first; equal scores keep the order of the index. *)
Fixpoint rank_insert (x : Match) (ranked : list Match) : list Match :=
  match ranked with
  | [] => [x]
  | y :: ranked' =>
      if Qltb (score_of y) (score_of x) then x :: y :: ranked'
      else y :: rank_insert x ranked'
  end.

Definition rank (l : list Match) : list Match :=
  fold_left (fun ranked x => rank_insert x ranked) l [].

(** [index.query({ vector, topK, includeMetadata: true, filter })]: the
    [topK] entries nearest to [vector] among those the filter matches. *)
Definition index_query (vector : Embedding) (topK : nat)
    (f : option Filter) : M World (list Match) :=
  external IndexQuery
    (gets (fun w =>
       firstn topK
         (rank
            (map (fun v =>
                    {| m_id := ve_id v;
                       m_score := Some (similarity env vector (ve_values v));
                       m_metadata := Some (ve_metadata v) |})
               (filter (fun v => filter_matches f (ve_metadata v))
                  (pinecone w)))))).

(** [voyageClient.embed({ input, model, inputType, outputDimension })]:
    the [data] of the response. *)
Definition voyage_embed (input : list string) (inputType : string)
  : M World (option (list (option Embedding))) :=
  external VoyageEmbed (ret (embed env input inputType)).

(** [voyageClient.rerank({ query, documents, model, topK })]: the [data] of
    the response. *)
Definition voyage_rerank (query : string) (docs : list string) (topK : nat)
  : M World (option (list RerankItem)) :=
  external VoyageRerank (ret (rerank env query docs topK)).

(** [childSplitter.splitText(text)] *)
Definition childSplitter_splitText (text : string) : M World (list string) :=
  external SplitText (ret (splitText env text)).

End WithEnv.

End Collaborators.

(** ** utils/embeddings.ts: ingestion *)

Module Ingestion.

Import JS Splitter Effects Effects.Notations Model Collaborators.
Local Open Scope string_scope.

(** What differs between [embedAndStoreDocument] and
    [embedAndStorePatientDocument]: the metadata of a vector entry (from the
    looked-up document, the created parent row, the child text and the two
    indices) and the texts logged. *)
Record Variant : Type := {
  metadata_of :
    option Document -> string -> string -> ParentChunk -> option string ->
    nat -> nat -> Metadata;
  msg_processing : string;
  msg_success : string;
  msg_error : string
}.

(** [`${documentId}_parent${parentIndex}_child${childIdx}`] *)
Definition pineconeId (documentId : string) (parentIndex childIdx : nat)
  : string :=
  documentId ++ "_parent" ++ Number_toString parentIndex
    ++ "_child" ++ Number_toString childIdx.

Section WithEnv.

Variable env : Env.

(** The closure [processSingleParent(parentContent, parentIndex)]. *)
Definition processSingleParent (v : Variant) (document : option Document)
    (documentId documentTitle : string) (parentContent : string)
    (parentIndex : nat) : M World unit :=
  console_log "Processing parent chunk index" ;;
  try_catch
    (parentChunk <- parentChunk_create env documentId parentIndex
                      parentContent ;;
     childChunks <- childSplitter_splitText env parentContent ;;
     if (List.length childChunks =? 0)%nat then
       console_log "No child chunks for parent index"
     else
       voyageEmbeddings <- voyage_embed env childChunks "document" ;;
       let vectors :=
         option_map
           (mapi (fun embeddingResult childIdx =>
                    {| ve_id := pineconeId documentId parentIndex childIdx;
                       ve_values := embeddingResult;
                       ve_metadata :=
                         metadata_of v document documentId documentTitle
                           parentChunk (nth_error childChunks childIdx)
                           parentIndex childIdx |}))
           voyageEmbeddings in
       match vectors with
       | Some ((_ :: _) as vectors) =>
           index_upsert env vectors ;;
           console_log "Upserted vectors for parent index" ;;
           ragChunk_createMany env
             (mapi (fun v idx =>
                      {| rc_documentId := documentId;
                         rc_parentChunkId := pc_id parentChunk;
                         rc_chunkIndex := parentIndex * 1000 + idx;
                         rc_chunkText := nth_error childChunks idx;
                         rc_pineconeId := ve_id v |})
                vectors)
       | _ => ret tt
       end)
    (fun e => console_error "Error processing parent index").

(** [document?.isIngested] *)
Definition isIngested (document : option Document) : bool :=
  match document with
  | Some d => doc_isIngested d
  | None => false
  end.

(** The [try] block shared by the two ingestion functions.  A call of the
    splitter that does not return makes the whole run diverge.  The parents
    after the first are started together and awaited with [Promise.all];
    they are run here one after the other, in index order. *)
Definition ingest_body (v : Variant)
    (documentId content documentTitle : string) : M World bool :=
  document <- document_findUnique env documentId ;;
  if isIngested document then
    console_log "Document already ingested, skipping embedding process." ;;
    ret true
  else
    match textSplitterForRag content default_maxLength with
    | None => diverge
    | Some [] => console_log "No chunks to process." ;; ret true
    | Some ((first :: remaining) as parentChunks) =>
        console_log (msg_processing v) ;;
        ragChunk_deleteMany env documentId ;;
        parentChunk_deleteMany env documentId ;;
        processSingleParent v document documentId documentTitle first 0 ;;
        (if (1 <? List.length parentChunks)%nat then
           forEachM
             (fun chunk idx =>
                processSingleParent v document documentId documentTitle
                  chunk (idx + 1))
             remaining 0
         else ret tt) ;;
        document_update env documentId true ;;
        console_log (msg_success v) ;;
        ret true
    end.

Definition ingest (v : Variant) (documentId content documentTitle : string)
  : M World bool :=
  try_catch (ingest_body v documentId content documentTitle)
    (fun error => console_error (msg_error v) ;; ret false).

Definition document_variant : Variant := {|
  metadata_of := fun document documentId documentTitle parentChunk childText
                     parentIndex childIdx =>
    {| md_documentId := Some documentId;
       md_documentTitle := Some documentTitle;
       md_parentChunkId := Some (pc_id parentChunk);
       md_childText := childText;
       md_parentIndex := Some parentIndex;
       md_childIndex := Some childIdx;
       md_patient := None;
       md_patientId := None;
       md_type :=
         Some match document with
              | Some d =>
                  match doc_ragSubtype d with
                  | Some t => toLowerCase t
                  | None => "medicine"
                  end
              | None => "medicine"
              end |};
  msg_processing := "Processing parent chunks for document";
  msg_success := "Successfully ingested document";
  msg_error := "Error embedding and storing document:"
|}.

Definition patient_variant (patientId : string) : Variant := {|
  metadata_of := fun document documentId documentTitle parentChunk childText
                     parentIndex childIdx =>
    {| md_documentId := Some documentId;
       md_documentTitle := Some documentTitle;
       md_parentChunkId := Some (pc_id parentChunk);
       md_childText := childText;
       md_parentIndex := Some parentIndex;
       md_childIndex := Some childIdx;
       md_patient := Some true;
       md_patientId := Some patientId;
       md_type := Some "patient" |};
  msg_processing := "Processing parent chunks for patient document";
  msg_success := "Successfully ingested patient document";
  msg_error := "Error embedding and storing patient document:"
|}.

Definition embedAndStoreDocument (documentId content documentTitle : string)
  : M World bool :=
  ingest document_variant documentId content documentTitle.

Definition embedAndStorePatientDocument
    (documentId content documentTitle patientId : string) : M World bool :=
  ingest (patient_variant patientId) documentId content documentTitle.

Definition deleteDocumentVectors_body (documentId : string)
  : M World bool :=
  chunks <- ragChunk_findMany env documentId ;;
  (if (0 <? List.length chunks)%nat then
     index_deleteMany env (map rc_pineconeId chunks) ;;
     console_log "Deleted vectors from Pinecone"
   else ret tt) ;;
  parentChunk_deleteMany env documentId ;;
  document_update env documentId false ;;
  ret true.

Definition deleteDocumentVectors (documentId : string) : M World bool :=
  try_catch (deleteDocumentVectors_body documentId)
    (fun error =>
       console_error "Error deleting document vectors:" ;; ret false).

End WithEnv.

End Ingestion.

(** ** Retrieval: utils/embeddings.ts and dashboard/database/actions.ts *)

Module Retrieval.

Import JS Effects Effects.Notations Model Collaborators.
Local Open Scope string_scope.

Record ChildResult : Type := {
  cr_documentId : option string;
  cr_documentTitle : option string;
  cr_childText : option string;
  cr_parentChunkId : option string;
  cr_score : Q
}.

Record Reranked : Type := {
  rr_document : string;
  rr_relevanceScore : Q;
  rr_index : nat
}.

Record ParentSearchResult : Type := {
  parentChunkId : string;
  parentText : string;
  documentId : option string;
  documentTitle : option string;
  score : Q
}.

(** The value of a [parentScores] entry. *)
Record ParentScore : Type := {
  totalScore : Q;
  maxScore : Q;
  ps_documentId : option string;
  ps_documentTitle : option string
}.

Inductive TypeFilter : Type := medicine | disease | all.

Definition TypeFilter_string (t : TypeFilter) : string :=
  match t with
  | medicine => "medicine"
  | disease => "disease"
  | all => "all"
  end.

Definition default_topK : nat := 50.

(** [match.metadata?.field] *)
Definition metadata_field {A} (m : Match) (field : Metadata -> option A)
  : option A :=
  match m_metadata m with
  | Some md => field md
  | None => None
  end.

(** The metadata filter built by [searchVectorDatabase]. *)
Definition build_filter (typeFilter : TypeFilter) : Filter :=
  match typeFilter with
  | all => TypeIn ["medicine"; "disease"]
  | _ => TypeEq (TypeFilter_string typeFilter)
  end.

(** [1 / (index + 60)] *)
Definition rrfScore (index : nat) : Q :=
  (1 / inject_Z (Z.of_nat index + 60))%Q.

(** The callback of [childResults.forEach((result, index) => ...)]. *)
Definition accumulate_hit (parentScores : list (string * ParentScore))
    (result : ChildResult) (index : nat) : list (string * ParentScore) :=
  match cr_parentChunkId result with
  | None => parentScores
  | Some id =>
      if negb (truthy id) then parentScores
      else
        match Map_get id parentScores with
        | Some existing =>
            Map_set id
              {| totalScore := (totalScore existing + rrfScore index)%Q;
                 maxScore := Math_max (maxScore existing) (cr_score result);
                 ps_documentId := ps_documentId existing;
                 ps_documentTitle := ps_documentTitle existing |}
              parentScores
        | None =>
            Map_set id
              {| totalScore := rrfScore index;
                 maxScore := cr_score result;
                 ps_documentId := cr_documentId result;
                 ps_documentTitle := cr_documentTitle result |}
              parentScores
        end
  end.

Fixpoint aggregate_from (childResults : list ChildResult) (index : nat)
    (parentScores : list (string * ParentScore))
  : list (string * ParentScore) :=
  match childResults with
  | [] => parentScores
  | result :: rest =>
      aggregate_from rest (S index) (accumulate_hit parentScores result index)
  end.

Definition aggregate (childResults : list ChildResult)
  : list (string * ParentScore) :=
  aggregate_from childResults 0 [].

(** The comparator handed to [sort]: the difference of the total scores when
    it exceeds 0.001 in absolute value, else that of the maximal scores. *)
Definition compareParents (a b : string * ParentScore) : Q :=
  let scoreDiff := (totalScore (snd b) - totalScore (snd a))%Q in
  if Qltb (1 # 1000) (Math_abs scoreDiff) then scoreDiff
  else (maxScore (snd b) - maxScore (snd a))%Q.

(** [Array.from(parentScores.entries()).sort(...).slice(0, 10)] *)
Definition sortedParents (parentScores : list (string * ParentScore))
  : list (string * ParentScore) :=
  firstn 10 (Array_sort compareParents parentScores).

(** [intermediateResults.filter(...)] with the set [seenTexts]. *)
Fixpoint unique_texts (seenTexts : list string)
    (results : list ParentSearchResult) : list ParentSearchResult :=
  match results with
  | [] => []
  | result :: rest =>
      if negb (truthy (parentText result))
         || mem_string (parentText result) seenTexts
      then unique_texts seenTexts rest
      else result :: unique_texts (seenTexts ++ [parentText result]) rest
  end.

Section WithEnv.

Variable env : Env.

Definition querySimilarDocuments (query : string) (topK : nat)
    (filter : option Filter) : M World (list ChildResult) :=
  try_catch
    (queryEmbedding <- voyage_embed env [query] "query" ;;
     match queryEmbedding with
     | Some (Some queryVector :: _) =>
         matches <- index_query env queryVector topK filter ;;
         ret (List.filter
                (fun result =>
                   match cr_parentChunkId result with
                   | Some _ => true
                   | None => false
                   end)
                (map (fun m =>
                        {| cr_documentId := metadata_field m md_documentId;
                           cr_documentTitle :=
                             metadata_field m md_documentTitle;
                           cr_childText := metadata_field m md_childText;
                           cr_parentChunkId :=
                             metadata_field m md_parentChunkId;
                           cr_score := score_of m |})
                   matches))
     | _ =>
         console_error "Failed to generate query embedding" ;; ret []
     end)
    (fun error =>
       console_error "Error querying similar documents:" ;; ret []).

Definition getParentTexts (parentChunkIds : list string)
  : M World (list (string * string)) :=
  try_catch
    (let validIds := parentChunkIds in
     if (List.length validIds =? 0)%nat then ret []
     else
       parentChunks <- parentChunk_findMany env validIds ;;
       ret (fold_left
              (fun map chunk =>
                 Map_set (pc_id chunk) (pc_parentText chunk) map)
              parentChunks []))
    (fun error => console_error "Error fetching parent texts:" ;; ret []).

Definition rerankDocuments (query : string) (docs : list string)
    (topK : option nat) : M World (list Reranked) :=
  try_catch
    (if (List.length docs =? 0)%nat then ret []
     else
       console_log "Reranking documents with Voyage..." ;;
       rerankedResult <-
         voyage_rerank env query docs
           (match topK with Some k => k | None => List.length docs end) ;;
       match rerankedResult with
       | Some ((_ :: _) as data) =>
           console_log "Reranked documents." ;;
           ret (map (fun doc =>
                       {| rr_document :=
                            match ri_document doc with
                            | Some d => d
                            | None => ""
                            end;
                          rr_relevanceScore :=
                            match ri_relevanceScore doc with
                            | Some s => s
                            | None => 0%Q
                            end;
                          rr_index :=
                            match ri_index doc with
                            | Some i => i
                            | None => 0%nat
                            end |})
                  data)
       | _ => console_log "Voyage rerank returned no results." ;; ret []
       end)
    (fun error => console_error "Error reranking documents:" ;; ret []).

(** [parentTexts.get(parentChunkId) || ""] *)
Definition parentText_or_empty (parentTexts : list (string * string))
    (id : string) : string :=
  match Map_get id parentTexts with
  | Some t => if truthy t then t else ""
  | None => ""
  end.

Definition intermediateResults (parentTexts : list (string * string))
    (sorted : list (string * ParentScore)) : list ParentSearchResult :=
  map (fun entry =>
         {| parentChunkId := fst entry;
            parentText := parentText_or_empty parentTexts (fst entry);
            documentId := ps_documentId (snd entry);
            documentTitle := ps_documentTitle (snd entry);
            score := maxScore (snd entry) |})
    sorted.

(** The [try] block of [searchVectorDatabase]. *)
Definition searchVectorDatabase_body (query : string) (topK : nat)
    (typeFilter : TypeFilter) : M World (list ParentSearchResult) :=
  let filter := build_filter typeFilter in
  childResults <- querySimilarDocuments query topK (Some filter) ;;
  if (List.length childResults =? 0)%nat then ret []
  else
    let parentScores := aggregate childResults in
    let sorted := sortedParents parentScores in
    let parentChunkIds := map fst sorted in
    parentTexts <- getParentTexts parentChunkIds ;;
    let uniqueResults :=
      unique_texts [] (intermediateResults parentTexts sorted) in
    if (List.length uniqueResults =? 0)%nat then ret []
    else
      let documentsToRerank := map parentText uniqueResults in
      rerankedDocs <- rerankDocuments query documentsToRerank None ;;
      if (List.length rerankedDocs =? 0)%nat then ret uniqueResults
      else
        mapM (fun reranked =>
                match nth_error uniqueResults (rr_index reranked) with
                | Some original =>
                    ret {| parentChunkId := parentChunkId original;
                           parentText := parentText original;
                           documentId := documentId original;
                           documentTitle := documentTitle original;
                           score := rr_relevanceScore reranked |}
                | None =>
                    throw "TypeError: Cannot read properties of undefined"
                end)
          rerankedDocs.

Definition searchVectorDatabase (query : string) (topK : nat)
    (typeFilter : TypeFilter) : M World (list ParentSearchResult) :=
  if negb (truthy (trim query)) then ret []
  else
    try_catch (searchVectorDatabase_body query topK typeFilter)
      (fun error =>
         console_error "Error searching vector database:" ;; ret []).

End WithEnv.

End Retrieval.

(** ** Notions used to state the properties *)

Module Spec.

Import JS Splitter Effects Model Collaborators Retrieval.
Local Open Scope string_scope.

(** The recursive call available to a call of [splitByHeader] that may
    still nest [depth] calls. *)
Definition recurse_at (depth : nat) (maxLength : Z) (headerLevel : nat)
  : string -> option (list string) :=
  match depth with
  | O => fun _ => None
  | S depth' => fun c => splitByHeader depth' maxLength c (headerLevel + 1)
  end.

Section Runs.

Context {W : Type}.

(** The run from every state comes back (with a value or an exception). *)
Definition comes_back {A} (m : M W A) : Prop :=
  forall w, fst (m w) <> Diverge.

(** The run from every state comes back with a value. *)
Definition succeeds {A} (m : M W A) : Prop :=
  forall w, exists a, fst (m w) = Ok a.

(** The part [f] of the state is the same after the run. *)
Definition keeps {A X} (f : W -> X) (m : M W A) : Prop :=
  forall w, f (snd (m w)) = f w.

End Runs.

(** *** Aggregation *)

(** [result] is a hit of the parent [id]. *)
Definition is_hit_of (id : string) (result : ChildResult) : bool :=
  match cr_parentChunkId result with
  | Some p => String.eqb p id
  | None => false
  end.

(** The hits of the parent [id] in the child-hit list, each with its rank
    (counted from [index]) and its raw similarity score. *)
Fixpoint hits_of_from (id : string) (childResults : list ChildResult)
    (index : nat) : list (nat * Q) :=
  match childResults with
  | [] => []
  | r :: rest =>
      if is_hit_of id r
      then (index, cr_score r) :: hits_of_from id rest (S index)
      else hits_of_from id rest (S index)
  end.

Definition hits_of (id : string) (childResults : list ChildResult)
  : list (nat * Q) :=
  hits_of_from id childResults 0.

(** The contribution 1 / (i + 60) of rank [i], as a fraction. *)
Definition reciprocal_rank (i : nat) : Q := 1 # Pos.of_nat (i + 60).

Fixpoint sum_reciprocal_ranks (ranks : list nat) : Q :=
  match ranks with
  | [] => 0
  | i :: ranks' => reciprocal_rank i + sum_reciprocal_ranks ranks'
  end.

(** [m] is the greatest number of [l]. *)
Definition is_maximum (m : Q) (l : list Q) : Prop :=
  In m l /\ Forall (fun s => s <= m) l.

(** The parent with ranks [ranksA] has more hits than the one with ranks
    [ranksB], and its k-th hit ranks at least as well as the other's k-th
    hit, for every hit of the other. *)
Definition dominates (ranksA ranksB : list nat) : Prop :=
  (List.length ranksB < List.length ranksA)%nat
  /\ Forall2 le (firstn (List.length ranksB) ranksA) ranksB.

(** What one hit does to the entry of its parent. *)
Definition merge_hit (entry : option ParentScore) (result : ChildResult)
    (index : nat) : ParentScore :=
  match entry with
  | Some existing =>
      {| totalScore := (totalScore existing + rrfScore index)%Q;
         maxScore := Math_max (maxScore existing) (cr_score result);
         ps_documentId := ps_documentId existing;
         ps_documentTitle := ps_documentTitle existing |}
  | None =>
      {| totalScore := rrfScore index;
         maxScore := cr_score result;
         ps_documentId := cr_documentId result;
         ps_documentTitle := cr_documentTitle result |}
  end.

Fixpoint merge_hits (id : string) (entry : option ParentScore)
    (childResults : list ChildResult) (index : nat) : option ParentScore :=
  match childResults with
  | [] => entry
  | r :: rest =>
      merge_hits id
        (if is_hit_of id r then Some (merge_hit entry r index) else entry)
        rest (S index)
  end.

(** *** Order of the parents *)



(** The order as worded with a tie being a difference below 0.001: a tie is
    broken by the maximal score, any other pair by the total score. *)
Definition in_claimed_order (a b : string * ParentScore) : Prop :=
  let diff := totalScore (snd a) - totalScore (snd b) in
  (Qabs diff < 1 # 1000 -> maxScore (snd b) <= maxScore (snd a))
  /\ (~ Qabs diff < 1 # 1000 -> totalScore (snd b) <= totalScore (snd a)).

(** *** Patient-tagged vector entries *)

Definition is_patient_entry (v : VectorEntry) : bool :=
  match md_type (ve_metadata v) with
  | Some t => String.eqb t "patient"
  | None => false
  end.

Definition general_entries (w : World) : list VectorEntry :=
  filter (fun v => negb (is_patient_entry v)) (pinecone w).

(** The two states differ at most in the patient-tagged vector entries. *)
Definition same_but_patient_entries (w1 w2 : World) : Prop :=
  documents w1 = documents w2
  /\ parentChunks w1 = parentChunks w2
  /\ ragChunks w1 = ragChunks w2
  /\ console w1 = console w2
  /\ calls w1 = calls w2
  /\ general_entries w1 = general_entries w2.

(** From two such states the run gives the same outcome and two such
    states. *)
Definition blind_to_patient_entries {A} (m : M World A) : Prop :=
  forall w1 w2,
    same_but_patient_entries w1 w2 ->
    fst (m w1) = fst (m w2)
    /\ same_but_patient_entries (snd (m w1)) (snd (m w2)).

(** *** The reranker *)

(** The reranker collaborator, called from state [w], answers with no result
    or throws. *)
Definition reranker_gives_nothing (env : Env) (query : string)
    (docs : list string) (w : World) : Prop :=
  faults env (List.length (calls w)) = true
  \/ rerank env query docs (List.length docs) = None
  \/ rerank env query docs (List.length docs) = Some [].

End Spec.

(** ** Concrete inputs *)

Module Examples.

Import JS Splitter Effects Model Collaborators Ingestion Retrieval.
Local Open Scope string_scope.

Definition NL : string := String LF "".

(** A text with two level-1 sections and one level-2 section. *)
Definition sample_text : string :=
  "# A" ++ NL ++ "xxxxx" ++ NL ++ "# B" ++ NL ++ "yyyyy" ++ NL ++ "## C"
    ++ NL ++ "zzzzzzzzzzzz".

(** Collaborators that answer every call: one child per non-empty parent, a
    one-dimensional embedding per text, no reranking result, and the first
    coordinate of an entry as its similarity. *)
Definition env_ok : Env := {|
  faults := fun _ => false;
  idSupply := fun n => "pc" ++ Number_toString n;
  splitText := fun t => if truthy t then [t] else [];
  embed := fun input _ => Some (map (fun _ => Some [1%Q]) input);
  rerank := fun _ _ _ => None;
  similarity := fun _ v =>
    match v with
    | Some (x :: _) => x
    | _ => 0%Q
    end
|}.



Definition world_of (ds : list Document) (ps : list ParentChunk)
    (vs : list VectorEntry) : World :=
  {| documents := ds; parentChunks := ps; ragChunks := []; pinecone := vs;
     console := []; calls := [] |}.

(** One document, not ingested yet. *)
Definition world_new : World :=
  world_of [{| doc_id := "d1"; doc_isIngested := false;
               doc_ragSubtype := Some DISEASE |}] [] [].

(** One document, ingested. *)
Definition world_ingested : World :=
  world_of [{| doc_id := "d1"; doc_isIngested := true;
               doc_ragSubtype := Some DISEASE |}] [] [].

Definition entry (id parent tag : string) (x : Q) : VectorEntry :=
  {| ve_id := id;
     ve_values := Some [x];
     ve_metadata :=
       {| md_documentId := Some "d1"; md_documentTitle := Some "Doc";
          md_parentChunkId := Some parent; md_childText := Some id;
          md_parentIndex := None; md_childIndex := None;
          md_patient := None; md_patientId := None;
          md_type := Some tag |} |}.

Definition indexed_parents : list ParentChunk :=
  [ {| pc_id := "pA"; pc_documentId := "d1"; pc_parentIndex := 0;
       pc_parentText := "about fever" |};
    {| pc_id := "pB"; pc_documentId := "d1"; pc_parentIndex := 1;
       pc_parentText := "about aspirin" |};
    {| pc_id := "pP"; pc_documentId := "d2"; pc_parentIndex := 0;
       pc_parentText := "record of a patient" |} ].

(** An index with two general entries and no patient entry... *)
Definition world_general : World :=
  world_of [] indexed_parents
    [ entry "v1" "pA" "disease" (9 # 10); entry "v2" "pB" "medicine" (8 # 10) ].

(** ... and the same index with a patient entry, the nearest to any query. *)
Definition world_with_patient : World :=
  world_of [] indexed_parents
    [ entry "v0" "pP" "patient" 1; entry "v1" "pA" "disease" (9 # 10);
      entry "v2" "pB" "medicine" (8 # 10) ].

Definition hits_run : outcome (list ChildResult) * World :=
  querySimilarDocuments env_ok "fever" 50 (Some (build_filter all))
    world_general.

Definition example_childResults : list ChildResult :=
  match fst hits_run with
  | Ok r => r
  | _ => []
  end.

Definition texts_run : outcome (list (string * string)) * World :=
  getParentTexts env_ok
    (map fst (sortedParents (aggregate example_childResults)))
    (snd hits_run).

Definition example_parentTexts : list (string * string) :=
  match fst texts_run with
  | Ok t => t
  | _ => []
  end.

(** The candidates of the example before reranking. *)
Definition example_candidates : list ParentSearchResult :=
  unique_texts []
    (intermediateResults example_parentTexts
       (sortedParents (aggregate example_childResults))).

Definition hit (parent : string) (s : Q) : ChildResult :=
  {| cr_documentId := Some "doc"; cr_documentTitle := Some "Doc";
     cr_childText := None; cr_parentChunkId := Some parent; cr_score := s |}.

(** Three hits, best first: A at ranks 0 and 1, B at rank 2. *)
Definition small_hits : list ChildResult :=
  [ hit "A" (9 # 10); hit "A" (7 # 10); hit "B" (8 # 10) ].

(** Eleven hits, best first: Z at ranks 0 and 10, Y at 1 and 6, X at 2 and
    3, W at 4, 5, 7, 8 and 9. *)
Definition cyclic_hits : list ChildResult :=
  [ hit "Z" (90 # 100); hit "Y" (89 # 100); hit "X" (88 # 100);
    hit "X" (87 # 100); hit "W" (86 # 100); hit "W" (85 # 100);
    hit "Y" (84 # 100); hit "W" (83 # 100); hit "W" (82 # 100);
    hit "W" (81 # 100); hit "Z" (80 # 100) ].


End Examples.

(** * Properties *)

(** ** The splitter *)

Module SplitterFacts.

Import JS Splitter Spec.
Local Open Scope string_scope.

Lemma append_empty_r (s : string) : s ++ "" = s.
Proof. induction s as [|c s IH]; simpl; [reflexivity | now rewrite IH]. Qed.

Lemma append_assoc (s t u : string) : (s ++ t) ++ u = s ++ (t ++ u).
Proof. induction s as [|c s IH]; simpl; [reflexivity | now rewrite IH]. Qed.

Lemma truthy_append_r (s t : string) :
  truthy t = true -> truthy (s ++ t) = true.
Proof. destruct s; simpl; auto. Qed.

Lemma truthy_false_empty (s : string) : truthy s = false -> s = "".
Proof. destruct s; simpl; [reflexivity | discriminate]. Qed.

Lemma join_cons (x : string) (l : list string) : join (x :: l) = x ++ join l.
Proof.
  unfold join. destruct l as [|y l]; simpl.
  - now rewrite append_empty_r.
  - reflexivity.
Qed.

Lemma join_app (l1 l2 : list string) :
  join (l1 ++ l2)%list = join l1 ++ join l2.
Proof.
  induction l1 as [|x l1 IH].
  - reflexivity.
  - change ((x :: l1) ++ l2)%list with (x :: (l1 ++ l2))%list.
    now rewrite !join_cons, IH, append_assoc.
Qed.

Lemma join_single (x : string) : join [x] = x.
Proof. reflexivity. Qed.

(** Splitting with a look-ahead consumes nothing. *)
Lemma split_scan_join (header : string) :
  forall rest acc, join (split_scan header acc rest) = acc ++ rest.
Proof.
  induction rest as [|c rest IH]; intros acc; cbn [split_scan].
  - now rewrite join_single, append_empty_r.
  - destruct (truthy acc && _).
    + rewrite join_cons, IH. reflexivity.
    + rewrite IH, append_assoc. reflexivity.
Qed.

Lemma split_lookahead_join (header content : string) :
  join (split_lookahead header content) = content.
Proof.
  destruct content as [|c rest].
  - unfold split_lookahead. destruct (String.prefix header ""); reflexivity.
  - unfold split_lookahead. now rewrite split_scan_join.
Qed.

Lemma split_scan_truthy (header : string) :
  forall rest acc,
    truthy acc = true ->
    Forall (fun p => truthy p = true) (split_scan header acc rest).
Proof.
  induction rest as [|c rest IH]; intros acc Hacc; cbn [split_scan].
  - constructor; [assumption | constructor].
  - destruct (truthy acc && _).
    + constructor; [assumption | apply IH; reflexivity].
    + apply IH. apply truthy_append_r. reflexivity.
Qed.

Lemma split_scan_nonempty (header : string) :
  forall rest acc, split_scan header acc rest <> [].
Proof.
  induction rest as [|c rest IH]; intros acc; cbn [split_scan].
  - discriminate.
  - destruct (truthy acc && _); [discriminate | apply IH].
Qed.

(** The pieces of a non-empty text are non-empty, and there is at least
    one. *)
Lemma split_lookahead_pieces (header : string) (c : ascii) (rest : string) :
  split_lookahead header (String c rest) <> []
  /\ Forall (fun p => truthy p = true)
       (split_lookahead header (String c rest)).
Proof.
  unfold split_lookahead. split.
  - apply split_scan_nonempty.
  - cbn [split_scan truthy andb]. apply split_scan_truthy. reflexivity.
Qed.

Lemma headers_nonempty (headerLevel : nat) :
  (headerLevel < List.length headers)%nat ->
  String.prefix (nth headerLevel headers "") "" = false.
Proof.
  intros H. simpl in H.
  do 4 (destruct headerLevel as [|headerLevel]; [reflexivity|]).
  lia.
Qed.

Section Loop.

Variable recurse : string -> option (list string).
Variable maxLength : Z.

Lemma accumulate_parts_total :
  (forall p, exists sub, recurse p = Some sub) ->
  forall parts result accumulated,
  exists segs,
    accumulate_parts recurse maxLength parts result accumulated = Some segs.
Proof.
  intros Hrec. induction parts as [|part parts IH]; intros result acc; simpl.
  - eexists; reflexivity.
  - destruct (maxLength <? len part)%Z.
    + destruct (Hrec part) as [sub ->]. apply IH.
    + destruct (truthy acc && (maxLength <? len acc + len part)%Z);
        apply IH.
Qed.

Lemma accumulate_parts_join :
  (forall p sub, recurse p = Some sub -> join sub = p) ->
  forall parts result accumulated segs,
    accumulate_parts recurse maxLength parts result accumulated = Some segs ->
    join segs = join result ++ accumulated ++ join parts.
Proof.
  intros Hrec. induction parts as [|part parts IH];
    intros result acc segs; cbn [accumulate_parts].
  - intros [= <-]. change (join []) with "". rewrite append_empty_r.
    destruct (truthy acc) eqn:Hacc.
    + now rewrite join_app, join_single.
    + apply truthy_false_empty in Hacc. subst acc.
      now rewrite append_empty_r.
  - rewrite join_cons.
    destruct (maxLength <? len part)%Z.
    + destruct (recurse part) as [sub|] eqn:Hsub; [|discriminate].
      intros H. apply IH in H. rewrite H. simpl.
      rewrite join_app, (Hrec _ _ Hsub).
      destruct (truthy acc) eqn:Hacc.
      * now rewrite join_app, join_single, !append_assoc.
      * apply truthy_false_empty in Hacc. subst acc. simpl.
        now rewrite append_assoc.
    + destruct (truthy acc && (maxLength <? len acc + len part)%Z).
      * intros H. apply IH in H. rewrite H.
        now rewrite join_app, join_single, !append_assoc.
      * intros H. apply IH in H. rewrite H. now rewrite !append_assoc.
Qed.

Lemma accumulate_parts_nonempty :
  (forall p sub, recurse p = Some sub -> sub <> []) ->
  forall parts result accumulated segs,
    Forall (fun p => truthy p = true) parts ->
    result <> [] \/ truthy accumulated = true \/ parts <> [] ->
    accumulate_parts recurse maxLength parts result accumulated = Some segs ->
    segs <> [].
Proof.
  intros Hrec. induction parts as [|part parts IH];
    intros result acc segs Hparts Hsome; simpl.
  - intros [= <-]. destruct Hsome as [H | [H | H]].
    + destruct (truthy acc); [|assumption].
      destruct result; discriminate.
    + rewrite H. destruct result; discriminate.
    + contradiction.
  - inversion Hparts as [|? ? Hpart Hrest]; subst.
    destruct (maxLength <? len part)%Z.
    + destruct (recurse part) as [sub|] eqn:Hsub; [|discriminate].
      apply IH; [assumption|]. left.
      specialize (Hrec _ _ Hsub).
      destruct (if truthy acc then (result ++ [acc])%list else result);
        destruct sub; simpl; congruence.
    + destruct (truthy acc && (maxLength <? len acc + len part)%Z).
      * apply IH; [assumption|]. left. destruct result; discriminate.
      * apply IH; [assumption|]. right; left.
        now apply truthy_append_r.
Qed.

End Loop.

Lemma splitByHeader_unfold (depth : nat) (maxLength : Z) (content : string)
    (headerLevel : nat) :
  (len content <=? maxLength)%Z = false ->
  (headerLevel < List.length headers)%nat ->
  splitByHeader depth maxLength content headerLevel =
    let parts := split_lookahead (nth headerLevel headers "") content in
    if (List.length parts =? 1)%nat
    then recurse_at depth maxLength headerLevel content
    else accumulate_parts (recurse_at depth maxLength headerLevel)
           maxLength parts [] "".
Proof.
  intros Hbig Hlevel. apply Nat.leb_gt in Hlevel.
  destruct depth; cbn [splitByHeader]; rewrite Hbig, Hlevel; reflexivity.
Qed.

(** Both recursive calls of [splitByHeader] go one heading level down and
    use up one level of nesting. *)
Lemma splitByHeader_step (depth : nat) (maxLength : Z) (content : string)
    (headerLevel : nat) :
  (len content <=? maxLength)%Z = false ->
  (headerLevel < List.length headers)%nat ->
  splitByHeader (S depth) maxLength content headerLevel =
    let recurse c := splitByHeader depth maxLength c (headerLevel + 1) in
    let parts := split_lookahead (nth headerLevel headers "") content in
    if (List.length parts =? 1)%nat then recurse content
    else accumulate_parts recurse maxLength parts [] "".
Proof.
  intros Hbig Hlevel. now rewrite splitByHeader_unfold.
Qed.

Lemma splitByHeader_fits (depth : nat) (maxLength : Z) (content : string)
    (headerLevel : nat) :
  (len content <=? maxLength)%Z = true ->
  splitByHeader depth maxLength content headerLevel = Some [content].
Proof.
  intros Hfits. destruct depth; cbn [splitByHeader]; now rewrite Hfits.
Qed.

Lemma splitByHeader_exhausted (depth : nat) (maxLength : Z)
    (content : string) (headerLevel : nat) :
  (List.length headers <= headerLevel)%nat ->
  splitByHeader depth maxLength content headerLevel = Some [content].
Proof.
  intros Hlevel. apply Nat.leb_le in Hlevel.
  destruct depth; cbn [splitByHeader]; rewrite Hlevel;
    destruct (len content <=? maxLength)%Z; reflexivity.
Qed.

(** The three ways a call can go. *)
Lemma splitByHeader_cases (depth : nat) (maxLength : Z) (content : string)
    (headerLevel : nat) :
  splitByHeader depth maxLength content headerLevel = Some [content]
  \/ ((headerLevel < List.length headers)%nat
      /\ splitByHeader depth maxLength content headerLevel =
           let parts := split_lookahead (nth headerLevel headers "") content in
           if (List.length parts =? 1)%nat
           then recurse_at depth maxLength headerLevel content
           else accumulate_parts (recurse_at depth maxLength headerLevel)
                  maxLength parts [] "").
Proof.
  destruct (len content <=? maxLength)%Z eqn:Hfits.
  - left. now apply splitByHeader_fits.
  - destruct (Nat.lt_ge_cases headerLevel (List.length headers))
      as [Hlevel | Hlevel].
    + right. split; [assumption | now apply splitByHeader_unfold].
    + left. now apply splitByHeader_exhausted.
Qed.

Lemma splitByHeader_returns (maxLength : Z) :
  forall depth content headerLevel,
    (List.length headers <= depth + headerLevel)%nat ->
    exists segs,
      splitByHeader depth maxLength content headerLevel = Some segs.
Proof.
  induction depth as [|depth IH]; intros content headerLevel Hdepth.
  - rewrite splitByHeader_exhausted by lia. eexists; reflexivity.
  - destruct (splitByHeader_cases (S depth) maxLength content headerLevel)
      as [-> | [Hlevel ->]]; [eexists; reflexivity|].
    cbv zeta. cbn [recurse_at].
    destruct (List.length _ =? 1)%nat.
    + apply IH. lia.
    + apply accumulate_parts_total. intros p. apply IH. lia.
Qed.

Lemma splitByHeader_join (maxLength : Z) :
  forall depth content headerLevel segs,
    splitByHeader depth maxLength content headerLevel = Some segs ->
    join segs = content.
Proof.
  assert (Hloop : forall recurse content headerLevel segs,
    (forall p sub, recurse p = Some sub -> join sub = p) ->
    (let parts := split_lookahead (nth headerLevel headers "") content in
     if (List.length parts =? 1)%nat then recurse content
     else accumulate_parts recurse maxLength parts [] "") = Some segs ->
    join segs = content).
  { intros recurse content headerLevel segs Hrec. cbv zeta.
    destruct (List.length _ =? 1)%nat.
    - apply Hrec.
    - intros H. apply accumulate_parts_join in H; [|exact Hrec].
      rewrite H. apply split_lookahead_join. }
  induction depth as [|depth IH]; intros content headerLevel segs.
  - destruct (splitByHeader_cases 0 maxLength content headerLevel)
      as [-> | [Hlevel ->]]; [intros [= <-]; reflexivity|].
    apply Hloop; cbn [recurse_at]. discriminate.
  - destruct (splitByHeader_cases (S depth) maxLength content headerLevel)
      as [-> | [Hlevel ->]]; [intros [= <-]; reflexivity|].
    apply Hloop; cbn [recurse_at]. intros p sub. apply IH.
Qed.

Lemma splitByHeader_nonempty (maxLength : Z) :
  forall depth content headerLevel segs,
    splitByHeader depth maxLength content headerLevel = Some segs ->
    segs <> [].
Proof.
  assert (Hloop : forall recurse content headerLevel segs,
    (headerLevel < List.length headers)%nat ->
    (forall p sub, recurse p = Some sub -> sub <> []) ->
    (let parts := split_lookahead (nth headerLevel headers "") content in
     if (List.length parts =? 1)%nat then recurse content
     else accumulate_parts recurse maxLength parts [] "") = Some segs ->
    segs <> []).
  { intros recurse content headerLevel segs Hlevel Hrec. cbv zeta.
    destruct (List.length _ =? 1)%nat eqn:Hone.
    - apply Hrec.
    - destruct content as [|c rest].
      + unfold split_lookahead in Hone.
        rewrite headers_nonempty in Hone by assumption. discriminate.
      + destruct
          (split_lookahead_pieces (nth headerLevel headers "") c rest)
          as [Hne Hall].
        apply accumulate_parts_nonempty; auto. }
  induction depth as [|depth IH]; intros content headerLevel segs.
  - destruct (splitByHeader_cases 0 maxLength content headerLevel)
      as [-> | [Hlevel ->]]; [intros [= <-]; discriminate|].
    apply Hloop; auto; cbn [recurse_at]. discriminate.
  - destruct (splitByHeader_cases (S depth) maxLength content headerLevel)
      as [-> | [Hlevel ->]]; [intros [= <-]; discriminate|].
    apply Hloop; auto; cbn [recurse_at]. intros p sub. apply IH.
Qed.

End SplitterFacts.

(** ** Generic facts on runs *)

Module EffectFacts.

Import Effects Spec.

Section Runs.

Context {W : Type}.

Lemma comes_back_ret {A} (a : A) : comes_back (ret (W:=W) a).
Proof. intros w. discriminate. Qed.

Lemma comes_back_throw {A} (e : string) : comes_back (throw (W:=W) (A:=A) e).
Proof. intros w. discriminate. Qed.

Lemma comes_back_gets {A} (f : W -> A) : comes_back (gets f).
Proof. intros w. discriminate. Qed.

Lemma comes_back_modify (f : W -> W) : comes_back (modify f).
Proof. intros w. discriminate. Qed.

Lemma comes_back_bind {A B} (m : M W A) (k : A -> M W B) :
  comes_back m -> (forall a, comes_back (k a)) -> comes_back (bind m k).
Proof.
  intros Hm Hk w. unfold bind. specialize (Hm w).
  destruct (m w) as [[a | e |] w']; simpl in *.
  - apply Hk.
  - discriminate.
  - congruence.
Qed.

Lemma comes_back_try_catch {A} (body : M W A) (handler : string -> M W A) :
  comes_back body -> (forall e, comes_back (handler e)) ->
  comes_back (try_catch body handler).
Proof.
  intros Hb Hh w. unfold try_catch. specialize (Hb w).
  destruct (body w) as [[a | e |] w']; simpl in *.
  - discriminate.
  - apply Hh.
  - congruence.
Qed.

Lemma comes_back_forEachM {A} (f : A -> nat -> M W unit) :
  (forall x i, comes_back (f x i)) ->
  forall xs i, comes_back (forEachM f xs i).
Proof.
  intros Hf. induction xs as [|x xs IH]; intros i; simpl.
  - apply comes_back_ret.
  - apply comes_back_bind; [apply Hf | intros _; apply IH].
Qed.

Lemma comes_back_mapM {A B} (f : A -> M W B) :
  (forall x, comes_back (f x)) -> forall xs, comes_back (mapM f xs).
Proof.
  intros Hf. induction xs as [|x xs IH]; simpl.
  - apply comes_back_ret.
  - apply comes_back_bind; [apply Hf | intros y].
    apply comes_back_bind; [apply IH | intros ys; apply comes_back_ret].
Qed.

Lemma succeeds_comes_back {A} (m : M W A) : succeeds m -> comes_back m.
Proof. intros H w. destruct (H w) as [a ->]. discriminate. Qed.

Lemma succeeds_ret {A} (a : A) : succeeds (ret (W:=W) a).
Proof. intros w. now exists a. Qed.

Lemma succeeds_gets {A} (f : W -> A) : succeeds (gets f).
Proof. intros w. now exists (f w). Qed.

Lemma succeeds_modify (f : W -> W) : succeeds (modify f).
Proof. intros w. now exists tt. Qed.

Lemma succeeds_bind {A B} (m : M W A) (k : A -> M W B) :
  succeeds m -> (forall a, succeeds (k a)) -> succeeds (bind m k).
Proof.
  intros Hm Hk w. unfold bind. destruct (Hm w) as [a Ha].
  destruct (m w) as [[a' | e |] w']; simpl in Ha; try discriminate.
  apply Hk.
Qed.

(** A [try] whose handler only logs and returns a sentinel always comes back
    with a value: the value of the body, or the sentinel when the body
    throws. *)
Lemma succeeds_try_catch {A} (body : M W A) (handler : string -> M W A) :
  comes_back body -> (forall e, succeeds (handler e)) ->
  succeeds (try_catch body handler).
Proof.
  intros Hb Hh w. unfold try_catch. specialize (Hb w).
  destruct (body w) as [[a | e |] w']; simpl in *.
  - now exists a.
  - apply Hh.
  - congruence.
Qed.


Lemma try_catch_caught {A} (body : M W A) (handler : string -> M W A)
    (w w' : W) (e : string) :
  body w = (Throw e, w') -> try_catch body handler w = handler e w'.
Proof. intros H. unfold try_catch. now rewrite H. Qed.

Lemma try_catch_value {A} (body : M W A) (handler : string -> M W A)
    (w w' : W) (a : A) :
  body w = (Ok a, w') -> try_catch body handler w = (Ok a, w').
Proof. intros H. unfold try_catch. now rewrite H. Qed.

Lemma bind_value {A B} (m : M W A) (k : A -> M W B) (w w' : W) (a : A) :
  m w = (Ok a, w') -> bind m k w = k a w'.
Proof. intros H. unfold bind. now rewrite H. Qed.


Section Keeps.

Context {X : Type}.
Variable f : W -> X.

Lemma keeps_ret {A} (a : A) : keeps f (ret a).
Proof. intros w. reflexivity. Qed.

Lemma keeps_throw {A} (e : string) : keeps f (throw (A:=A) e).
Proof. intros w. reflexivity. Qed.

Lemma keeps_diverge {A} : keeps f (diverge (A:=A)).
Proof. intros w. reflexivity. Qed.

Lemma keeps_gets {A} (g : W -> A) : keeps f (gets g).
Proof. intros w. reflexivity. Qed.

Lemma keeps_modify (g : W -> W) :
  (forall w, f (g w) = f w) -> keeps f (modify g).
Proof. intros H w. apply H. Qed.

Lemma keeps_bind {A B} (m : M W A) (k : A -> M W B) :
  keeps f m -> (forall a, keeps f (k a)) -> keeps f (bind m k).
Proof.
  intros Hm Hk w. unfold bind. specialize (Hm w).
  destruct (m w) as [[a | e |] w']; simpl in *; try assumption.
  now rewrite Hk.
Qed.

Lemma keeps_try_catch {A} (body : M W A) (handler : string -> M W A) :
  keeps f body -> (forall e, keeps f (handler e)) ->
  keeps f (try_catch body handler).
Proof.
  intros Hb Hh w. unfold try_catch. specialize (Hb w).
  destruct (body w) as [[a | e |] w']; simpl in *; try assumption.
  now rewrite Hh.
Qed.

Lemma keeps_forEachM {A} (g : A -> nat -> M W unit) :
  (forall x i, keeps f (g x i)) -> forall xs i, keeps f (forEachM g xs i).
Proof.
  intros Hg. induction xs as [|x xs IH]; intros i; simpl.
  - apply keeps_ret.
  - apply keeps_bind; [apply Hg | intros _; apply IH].
Qed.

Lemma keeps_mapM {A B} (g : A -> M W B) :
  (forall x, keeps f (g x)) -> forall xs, keeps f (mapM g xs).
Proof.
  intros Hg. induction xs as [|x xs IH]; simpl.
  - apply keeps_ret.
  - apply keeps_bind; [apply Hg | intros y].
    apply keeps_bind; [apply IH | intros ys; apply keeps_ret].
Qed.

End Keeps.

End Runs.

End EffectFacts.

(** ** Facts on the collaborators *)

Module CollaboratorFacts.

Import JS Effects Model Collaborators Spec EffectFacts.

Ltac split_ifs :=
  repeat match goal with
         | |- context [if ?b then _ else _] => destruct b
         end.

Ltac primitive :=
  intros w;
  unfold document_findUnique, document_update, parentChunk_create,
    parentChunk_deleteMany, parentChunk_findMany, ragChunk_deleteMany,
    ragChunk_findMany, ragChunk_createMany, index_upsert, index_deleteMany,
    index_query, voyage_embed, voyage_rerank, childSplitter_splitText,
    console_log, console_error, external, gets, modify, ret;
  split_ifs; try discriminate; try reflexivity;
  try (eexists; reflexivity).

Section WithEnv.

Variable env : Env.

Lemma external_ok {A} (c : Call) (op : M World A) (w : World) :
  faults env (List.length (calls w)) = false ->
  external env c op w = op (with_calls (calls w ++ [c]) w).
Proof. intros H. unfold external. now rewrite H. Qed.


Lemma console_log_succeeds (msg : string) : succeeds (console_log msg).
Proof. primitive. Qed.

Lemma console_error_succeeds (msg : string) : succeeds (console_error msg).
Proof. primitive. Qed.

Lemma console_log_run (msg : string) (w : World) :
  console_log msg w = (Ok tt, with_console (console w ++ [Log msg]) w).
Proof. reflexivity. Qed.

Lemma console_error_run (msg : string) (w : World) :
  console_error msg w = (Ok tt, with_console (console w ++ [Error msg]) w).
Proof. reflexivity. Qed.

Lemma document_findUnique_comes_back id :
  comes_back (document_findUnique env id).
Proof. primitive. Qed.

Lemma document_update_comes_back id b :
  comes_back (document_update env id b).
Proof. primitive. Qed.

Lemma parentChunk_create_comes_back d i t :
  comes_back (parentChunk_create env d i t).
Proof. primitive. Qed.

Lemma parentChunk_deleteMany_comes_back d :
  comes_back (parentChunk_deleteMany env d).
Proof. primitive. Qed.

Lemma parentChunk_findMany_comes_back ids :
  comes_back (parentChunk_findMany env ids).
Proof. primitive. Qed.

Lemma ragChunk_deleteMany_comes_back d :
  comes_back (ragChunk_deleteMany env d).
Proof. primitive. Qed.

Lemma ragChunk_findMany_comes_back d :
  comes_back (ragChunk_findMany env d).
Proof. primitive. Qed.

Lemma ragChunk_createMany_comes_back rows :
  comes_back (ragChunk_createMany env rows).
Proof. primitive. Qed.

Lemma index_upsert_comes_back vs : comes_back (index_upsert env vs).
Proof. primitive. Qed.

Lemma index_deleteMany_comes_back ids :
  comes_back (index_deleteMany env ids).
Proof. primitive. Qed.

Lemma index_query_comes_back v k f : comes_back (index_query env v k f).
Proof. primitive. Qed.

Lemma voyage_embed_comes_back input t :
  comes_back (voyage_embed env input t).
Proof. primitive. Qed.

Lemma voyage_rerank_comes_back q docs k :
  comes_back (voyage_rerank env q docs k).
Proof. primitive. Qed.

Lemma childSplitter_splitText_comes_back t :
  comes_back (childSplitter_splitText env t).
Proof. primitive. Qed.

Lemma console_log_comes_back msg : comes_back (console_log msg).
Proof. primitive. Qed.

Lemma console_error_comes_back msg : comes_back (console_error msg).
Proof. primitive. Qed.

(** Only [document_update] writes the Document table. *)

Lemma parentChunk_create_keeps_documents d i t :
  keeps documents (parentChunk_create env d i t).
Proof. primitive. Qed.

Lemma parentChunk_deleteMany_keeps_documents d :
  keeps documents (parentChunk_deleteMany env d).
Proof. primitive. Qed.

Lemma ragChunk_deleteMany_keeps_documents d :
  keeps documents (ragChunk_deleteMany env d).
Proof. primitive. Qed.

Lemma ragChunk_createMany_keeps_documents rows :
  keeps documents (ragChunk_createMany env rows).
Proof. primitive. Qed.

Lemma index_upsert_keeps_documents vs :
  keeps documents (index_upsert env vs).
Proof. primitive. Qed.

Lemma voyage_embed_keeps_documents input t :
  keeps documents (voyage_embed env input t).
Proof. primitive. Qed.

Lemma childSplitter_splitText_keeps_documents t :
  keeps documents (childSplitter_splitText env t).
Proof. primitive. Qed.

Lemma console_log_keeps_documents msg : keeps documents (console_log msg).
Proof. primitive. Qed.

Lemma console_error_keeps_documents msg :
  keeps documents (console_error msg).
Proof. primitive. Qed.

(** Only [parentChunk_create] and [parentChunk_deleteMany] write the
    ParentChunk table. *)

Lemma document_update_keeps_parentChunks id b :
  keeps parentChunks (document_update env id b).
Proof. primitive. Qed.

Lemma ragChunk_createMany_keeps_parentChunks rows :
  keeps parentChunks (ragChunk_createMany env rows).
Proof. primitive. Qed.

Lemma index_upsert_keeps_parentChunks vs :
  keeps parentChunks (index_upsert env vs).
Proof. primitive. Qed.

Lemma voyage_embed_keeps_parentChunks input t :
  keeps parentChunks (voyage_embed env input t).
Proof. primitive. Qed.

Lemma childSplitter_splitText_keeps_parentChunks t :
  keeps parentChunks (childSplitter_splitText env t).
Proof. primitive. Qed.

Lemma console_log_keeps_parentChunks msg :
  keeps parentChunks (console_log msg).
Proof. primitive. Qed.

Lemma console_error_keeps_parentChunks msg :
  keeps parentChunks (console_error msg).
Proof. primitive. Qed.

End WithEnv.

Create HintDb runs.

#[export] Hint Resolve
  document_findUnique_comes_back document_update_comes_back
  parentChunk_create_comes_back parentChunk_deleteMany_comes_back
  parentChunk_findMany_comes_back ragChunk_deleteMany_comes_back
  ragChunk_findMany_comes_back ragChunk_createMany_comes_back
  index_upsert_comes_back index_deleteMany_comes_back
  index_query_comes_back voyage_embed_comes_back voyage_rerank_comes_back
  childSplitter_splitText_comes_back console_log_comes_back
  console_error_comes_back comes_back_ret comes_back_throw : runs.

#[export] Hint Resolve
  parentChunk_create_keeps_documents parentChunk_deleteMany_keeps_documents
  ragChunk_deleteMany_keeps_documents ragChunk_createMany_keeps_documents
  index_upsert_keeps_documents voyage_embed_keeps_documents
  childSplitter_splitText_keeps_documents console_log_keeps_documents
  console_error_keeps_documents document_update_keeps_parentChunks
  ragChunk_createMany_keeps_parentChunks index_upsert_keeps_parentChunks
  voyage_embed_keeps_parentChunks childSplitter_splitText_keeps_parentChunks
  console_log_keeps_parentChunks console_error_keeps_parentChunks
  keeps_ret keeps_throw : runs.

(** Runs built from the collaborators with [bind], [try_catch], loops and
    case distinctions are handled piece by piece. *)
Ltac run_step :=
  first
    [ solve [auto with runs]
    | progress cbv zeta
    | apply comes_back_bind; [|intro]
    | apply comes_back_try_catch; [|intro]
    | apply comes_back_forEachM; intros
    | apply comes_back_mapM; intros
    | apply keeps_bind; [|intro]
    | apply keeps_try_catch; [|intro]
    | apply keeps_forEachM; intros
    | apply keeps_mapM; intros
    | match goal with
      | |- comes_back (if ?b then _ else _) => destruct b
      | |- comes_back (match ?x with _ => _ end) => destruct x
      | |- keeps _ (if ?b then _ else _) => destruct b
      | |- keeps _ (match ?x with _ => _ end) => destruct x
      end ].

Ltac run_steps := repeat run_step.

End CollaboratorFacts.

(** ** Facts on ingestion *)

Module IngestionFacts.

Import JS Splitter Effects Model Collaborators Ingestion.
Import Spec EffectFacts CollaboratorFacts SplitterFacts.
Local Open Scope string_scope.

Section WithEnv.

Variable env : Env.

Lemma textSplitterForRag_returns (text : string) (maxLength : Z) :
  exists first remaining,
    textSplitterForRag text maxLength = Some (first :: remaining).
Proof.
  unfold textSplitterForRag.
  destruct (splitByHeader_returns maxLength (List.length headers) text 0)
    as [segs Hsegs]; [lia|].
  rewrite Hsegs. apply splitByHeader_nonempty in Hsegs.
  destruct segs as [|first remaining]; [contradiction|].
  now exists first, remaining.
Qed.

Lemma processSingleParent_comes_back v document documentId documentTitle
    parentContent parentIndex :
  comes_back
    (processSingleParent env v document documentId documentTitle
       parentContent parentIndex).
Proof. unfold processSingleParent. run_steps. Qed.

(** Whatever happens to a parent, [processSingleParent] returns normally. *)
Lemma processSingleParent_succeeds v document documentId documentTitle
    parentContent parentIndex :
  succeeds
    (processSingleParent env v document documentId documentTitle
       parentContent parentIndex).
Proof.
  unfold processSingleParent.
  apply succeeds_bind; [apply console_log_succeeds | intros _].
  apply succeeds_try_catch.
  - run_steps.
  - intros e. apply console_error_succeeds.
Qed.


Lemma ingest_body_comes_back v documentId content documentTitle :
  comes_back (ingest_body env v documentId content documentTitle).
Proof.
  unfold ingest_body.
  destruct (textSplitterForRag_returns content default_maxLength)
    as (first & remaining & ->).
  pose proof processSingleParent_comes_back. run_steps.
Qed.

Lemma deleteDocumentVectors_body_comes_back documentId :
  comes_back (deleteDocumentVectors_body env documentId).
Proof. unfold deleteDocumentVectors_body. run_steps. Qed.

End WithEnv.

End IngestionFacts.

(** ** Facts on retrieval: the helpers never throw *)

Module RetrievalRuns.

Import JS Effects Model Collaborators Retrieval.
Import Spec EffectFacts CollaboratorFacts.
Local Open Scope string_scope.

Section WithEnv.

Variable env : Env.

Lemma querySimilarDocuments_succeeds query topK filter :
  succeeds (querySimilarDocuments env query topK filter).
Proof.
  unfold querySimilarDocuments. apply succeeds_try_catch.
  - run_steps.
  - intros e. apply succeeds_bind;
      [apply console_error_succeeds | intros _; apply succeeds_ret].
Qed.

Lemma getParentTexts_succeeds ids : succeeds (getParentTexts env ids).
Proof.
  unfold getParentTexts. apply succeeds_try_catch.
  - run_steps.
  - intros e. apply succeeds_bind;
      [apply console_error_succeeds | intros _; apply succeeds_ret].
Qed.

Lemma rerankDocuments_succeeds query docs topK :
  succeeds (rerankDocuments env query docs topK).
Proof.
  unfold rerankDocuments. apply succeeds_try_catch.
  - run_steps.
  - intros e. apply succeeds_bind;
      [apply console_error_succeeds | intros _; apply succeeds_ret].
Qed.

Lemma searchVectorDatabase_body_comes_back query topK typeFilter :
  comes_back (searchVectorDatabase_body env query topK typeFilter).
Proof.
  pose proof (fun q k f =>
    succeeds_comes_back _ (querySimilarDocuments_succeeds q k f)).
  pose proof (fun ids =>
    succeeds_comes_back _ (getParentTexts_succeeds ids)).
  pose proof (fun q d k =>
    succeeds_comes_back _ (rerankDocuments_succeeds q d k)).
  unfold searchVectorDatabase_body. run_steps.
Qed.

End WithEnv.

End RetrievalRuns.

(** ** Runs of the ingestion steps *)

Module IngestionRuns.

Import JS Splitter Effects Model Collaborators Ingestion.
Import Spec EffectFacts CollaboratorFacts SplitterFacts IngestionFacts.
Local Open Scope string_scope.


Lemma find_has_document id w d :
  find (fun d => String.eqb (doc_id d) id) (documents w) = Some d ->
  has_document id w = true.
Proof.
  unfold has_document. intros H. apply existsb_exists. exists d.
  apply find_some in H. tauto.
Qed.


Lemma try_catch_bind_value {W A B} (m : M W A) (k : A -> M W B)
    (h : string -> M W B) (w w' : W) (a : A) :
  m w = (Ok a, w') -> try_catch (bind m k) h w = try_catch (k a) h w'.
Proof. intros H. unfold try_catch. now erewrite bind_value by exact H. Qed.


Section WithEnv.

Variable env : Env.

Lemma document_findUnique_run id w n :
  List.length (calls w) = n -> faults env n = false ->
  document_findUnique env id w =
    (Ok (find (fun d => String.eqb (doc_id d) id) (documents w)),
     with_calls (calls w ++ [DocumentFindUnique]) w).
Proof. intros <- H. unfold document_findUnique. now rewrite external_ok. Qed.

Lemma ragChunk_deleteMany_run id w n :
  List.length (calls w) = n -> faults env n = false ->
  exists w',
    ragChunk_deleteMany env id w = (Ok tt, w')
    /\ documents w' = documents w
    /\ parentChunks w' = parentChunks w
    /\ calls w' = (calls w ++ [RagChunkDeleteMany])%list.
Proof.
  intros <- H. unfold ragChunk_deleteMany. rewrite external_ok by assumption.
  eexists. split; [reflexivity|]. auto.
Qed.

Lemma parentChunk_deleteMany_run id w n :
  List.length (calls w) = n -> faults env n = false ->
  exists w',
    parentChunk_deleteMany env id w = (Ok tt, w')
    /\ documents w' = documents w
    /\ parentChunks w' =
         filter (fun p => negb (String.eqb (pc_documentId p) id))
           (parentChunks w)
    /\ calls w' = (calls w ++ [ParentChunkDeleteMany])%list.
Proof.
  intros <- H. unfold parentChunk_deleteMany.
  rewrite external_ok by assumption.
  eexists. split; [reflexivity|]. auto.
Qed.


Lemma parentChunk_create_run documentId parentIndex parentText w n :
  List.length (calls w) = n -> faults env n = false ->
  has_document documentId w = true ->
  existsb (fun p => String.eqb (pc_documentId p) documentId
                    && (pc_parentIndex p =? parentIndex)%nat)
    (parentChunks w) = false ->
  let row := {| pc_id := idSupply env (n + 1);
                pc_documentId := documentId;
                pc_parentIndex := parentIndex;
                pc_parentText := parentText |} in
  parentChunk_create env documentId parentIndex parentText w =
    (Ok row,
     with_parentChunks (parentChunks w ++ [row])
       (with_calls (calls w ++ [ParentChunkCreate]) w)).
Proof.
  intros <- Hf Hdoc Hfree row. unfold parentChunk_create.
  rewrite external_ok by assumption.
  unfold has_document in *. cbn. rewrite Hdoc, Hfree. cbn.
  rewrite length_app. reflexivity.
Qed.

Lemma processSingleParent_creates_row v document documentId documentTitle
    parentContent parentIndex w n :
  List.length (calls w) = n -> faults env n = false ->
  has_document documentId w = true ->
  existsb (fun p => String.eqb (pc_documentId p) documentId
                    && (pc_parentIndex p =? parentIndex)%nat)
    (parentChunks w) = false ->
  exists w',
    processSingleParent env v document documentId documentTitle
      parentContent parentIndex w = (Ok tt, w')
    /\ parentChunks w' =
         (parentChunks w ++
          [{| pc_id := idSupply env (n + 1);
              pc_documentId := documentId;
              pc_parentIndex := parentIndex;
              pc_parentText := parentContent |}])%list.
Proof.
  intros Hn Hf Hdoc Hfree.
  destruct (processSingleParent_succeeds env v document documentId
              documentTitle parentContent parentIndex w) as [[] Hok].
  destruct (processSingleParent env v document documentId documentTitle
              parentContent parentIndex w) as [o w'] eqn:Hrun.
  simpl in Hok. subst o. exists w'. split; [reflexivity|].
  apply (f_equal snd) in Hrun. simpl in Hrun. rewrite <- Hrun.
  unfold processSingleParent.
  erewrite bind_value by apply console_log_run.
  erewrite try_catch_bind_value
    by (apply parentChunk_create_run with (n := n); assumption).
  match goal with |- parentChunks (snd (try_catch ?b ?h ?w0)) = _ =>
    assert (K : keeps parentChunks (try_catch b h)) by run_steps;
    rewrite (K w0) end.
  reflexivity.
Qed.

Lemma filter_own_after_delete (id : string) (rows : list ParentChunk) :
  filter (fun p => String.eqb (pc_documentId p) id)
    (filter (fun p => negb (String.eqb (pc_documentId p) id)) rows) = [].
Proof.
  induction rows as [|p rows IH]; simpl; [reflexivity|].
  destruct (String.eqb (pc_documentId p) id) eqn:Hp; simpl.
  - exact IH.
  - now rewrite Hp.
Qed.

Lemma none_own_after_delete (id : string) (i : nat)
    (rows : list ParentChunk) :
  existsb (fun p => String.eqb (pc_documentId p) id
                    && (pc_parentIndex p =? i)%nat)
    (filter (fun p => negb (String.eqb (pc_documentId p) id)) rows) = false.
Proof.
  induction rows as [|p rows IH]; simpl; [reflexivity|].
  destruct (String.eqb (pc_documentId p) id) eqn:Hp; simpl.
  - exact IH.
  - now rewrite Hp.
Qed.

End WithEnv.

End IngestionRuns.

(** ** Facts on aggregation and on the order of the parents *)

Module RetrievalFacts.

Import JS Effects Model Collaborators Retrieval Spec.
Local Open Scope string_scope.

Lemma rrfScore_reciprocal (i : nat) : rrfScore i == reciprocal_rank i.
Proof.
  unfold rrfScore, reciprocal_rank, Qdiv, Qinv, inject_Z, Qeq, Qmult. simpl.
  destruct (Z.of_nat i + 60)%Z eqn:E; try lia.
  simpl. rewrite <- E.
  replace (i + 60)%nat with (S (i + 59)) by lia.
  rewrite <- Pos.of_nat_succ, Zpos_P_of_succ_nat. lia.
Qed.

Lemma Map_get_set_same {V} (k : string) (v : V) m :
  Map_get k (Map_set k v m) = Some v.
Proof.
  induction m as [|[k' v'] m IH]; simpl.
  - now rewrite String.eqb_refl.
  - destruct (String.eqb k k') eqn:E; simpl.
    + now rewrite String.eqb_refl.
    + now rewrite E.
Qed.

Lemma Map_get_set_other {V} (k k0 : string) (v : V) m :
  k0 <> k -> Map_get k0 (Map_set k v m) = Map_get k0 m.
Proof.
  intros Hne. induction m as [|[k' v'] m IH]; simpl.
  - apply String.eqb_neq in Hne. now rewrite Hne.
  - destruct (String.eqb k k') eqn:E; simpl.
    + apply String.eqb_eq in E. subst k'.
      apply String.eqb_neq in Hne. now rewrite Hne.
    + destruct (String.eqb k0 k'); [reflexivity | exact IH].
Qed.

Lemma accumulate_hit_get (id : string) parentScores result index :
  truthy id = true ->
  Map_get id (accumulate_hit parentScores result index) =
    if is_hit_of id result
    then Some (merge_hit (Map_get id parentScores) result index)
    else Map_get id parentScores.
Proof.
  intros Hid. unfold accumulate_hit, is_hit_of.
  destruct (cr_parentChunkId result) as [p|]; [|reflexivity].
  destruct (String.eqb p id) eqn:E.
  - apply String.eqb_eq in E. subst p. rewrite Hid. simpl.
    destruct (Map_get id parentScores); simpl; apply Map_get_set_same.
  - apply String.eqb_neq in E.
    destruct (truthy p); simpl; [|reflexivity].
    destruct (Map_get p parentScores); apply Map_get_set_other; congruence.
Qed.

Lemma aggregate_from_get (id : string) :
  truthy id = true ->
  forall childResults index parentScores,
    Map_get id (aggregate_from childResults index parentScores) =
      merge_hits id (Map_get id parentScores) childResults index.
Proof.
  intros Hid. induction childResults as [|r rest IH]; intros index M; simpl.
  - reflexivity.
  - rewrite IH, accumulate_hit_get by assumption. reflexivity.
Qed.

(** The empty id is never a key of [parentScores]. *)
Lemma aggregate_key_truthy (id : string) (entry : ParentScore)
    (childResults : list ChildResult) :
  Map_get id (aggregate childResults) = Some entry -> truthy id = true.
Proof.
  destruct (truthy id) eqn:Hid; [reflexivity|]. unfold aggregate.
  enough (H : forall rs index M,
            Map_get id (aggregate_from rs index M) = Map_get id M)
    by (rewrite H; discriminate).
  induction rs as [|r rs IH]; intros index M; simpl; [reflexivity|].
  rewrite IH. unfold accumulate_hit.
  destruct (cr_parentChunkId r) as [p|]; [|reflexivity].
  destruct (truthy p) eqn:Hp; simpl; [|reflexivity].
  assert (Hne : id <> p) by (intros ->; congruence).
  destruct (Map_get p M); now apply Map_get_set_other.
Qed.

Lemma merge_hits_some (id : string) :
  forall childResults index e,
  exists e',
    merge_hits id (Some e) childResults index = Some e'
    /\ totalScore e' ==
         totalScore e
         + sum_reciprocal_ranks (map fst (hits_of_from id childResults index))
    /\ is_maximum (maxScore e')
         (maxScore e :: map snd (hits_of_from id childResults index)).
Proof.
  induction childResults as [|r rest IH]; intros index e; simpl.
  - exists e. split; [reflexivity|]. split; [lra|].
    split; [now left|]. constructor; [lra | constructor].
  - destruct (is_hit_of id r); [|apply IH].
    destruct (IH (S index) (merge_hit (Some e) r index))
      as (e' & He' & Htot & Hin & Hall).
    exists e'. split; [exact He'|]. simpl in *. split.
    + rewrite Htot, rrfScore_reciprocal. lra.
    + inversion Hall as [|? ? Hhd Htl]; subst.
      unfold Math_max in *.
      destruct (Qle_bool (maxScore e) (cr_score r)) eqn:Hle.
      * apply Qle_bool_iff in Hle. split.
        -- destruct Hin as [Hin | Hin]; [right; left; exact Hin|].
           right; right; exact Hin.
        -- constructor; [lra|]. constructor; assumption.
      * assert (cr_score r <= maxScore e).
        { destruct (Qlt_le_dec (maxScore e) (cr_score r)) as [Hlt|]; [|assumption].
          apply Qlt_le_weak, Qle_bool_iff in Hlt. congruence. }
        split.
        -- destruct Hin as [Hin | Hin]; [left; exact Hin|].
           right; right; exact Hin.
        -- constructor; [assumption|]. constructor; [lra | assumption].
Qed.

Lemma merge_hits_none (id : string) :
  forall childResults index,
    match hits_of_from id childResults index with
    | [] => merge_hits id None childResults index = None
    | hits =>
        exists e,
          merge_hits id None childResults index = Some e
          /\ totalScore e == sum_reciprocal_ranks (map fst hits)
          /\ is_maximum (maxScore e) (map snd hits)
    end.
Proof.
  induction childResults as [|r rest IH]; intros index; simpl.
  - reflexivity.
  - destruct (is_hit_of id r); [|apply IH].
    destruct (merge_hits_some id rest (S index) (merge_hit None r index))
      as (e & He & Htot & Hmax).
    exists e. split; [exact He|]. simpl in *. split.
    + rewrite Htot, rrfScore_reciprocal. lra.
    + exact Hmax.
Qed.

Lemma Zpos_rank (i : nat) :
  Z.pos (Pos.of_nat (i + 60)) = (Z.of_nat i + 60)%Z.
Proof.
  replace (i + 60)%nat with (S (i + 59)) by lia.
  rewrite <- Pos.of_nat_succ, Zpos_P_of_succ_nat. lia.
Qed.

Lemma reciprocal_rank_antitone (i j : nat) :
  (i <= j)%nat -> reciprocal_rank j <= reciprocal_rank i.
Proof.
  intros H. unfold reciprocal_rank, Qle. simpl. rewrite !Zpos_rank. lia.
Qed.

Lemma reciprocal_rank_nonneg (i : nat) : 0 <= reciprocal_rank i.
Proof. unfold reciprocal_rank, Qle. simpl. lia. Qed.

Lemma sum_reciprocal_ranks_nonneg (l : list nat) :
  0 <= sum_reciprocal_ranks l.
Proof.
  induction l as [|i l IH]; simpl; [lra|].
  pose proof (reciprocal_rank_nonneg i). lra.
Qed.

Lemma sum_reciprocal_ranks_firstn (n : nat) (l : list nat) :
  sum_reciprocal_ranks (firstn n l) <= sum_reciprocal_ranks l.
Proof.
  revert n. induction l as [|i l IH]; intros [|n]; simpl; try lra.
  - pose proof (reciprocal_rank_nonneg i).
    pose proof (sum_reciprocal_ranks_nonneg l). lra.
  - specialize (IH n). lra.
Qed.

Lemma sum_reciprocal_ranks_pointwise (la lb : list nat) :
  Forall2 le la lb -> sum_reciprocal_ranks lb <= sum_reciprocal_ranks la.
Proof.
  induction 1 as [|a b la lb Hab _ IH]; simpl; [lra|].
  pose proof (@reciprocal_rank_antitone a b Hab). lra.
Qed.

Lemma dominates_sum (ranksA ranksB : list nat) :
  dominates ranksA ranksB ->
  sum_reciprocal_ranks ranksB <= sum_reciprocal_ranks ranksA.
Proof.
  intros [_ H]. apply sum_reciprocal_ranks_pointwise in H.
  pose proof (sum_reciprocal_ranks_firstn (List.length ranksB) ranksA). lra.
Qed.

Lemma aggregate_entry (childResults : list ChildResult) (id : string) :
  truthy id = true ->
  hits_of id childResults <> [] ->
  exists entry,
    Map_get id (aggregate childResults) = Some entry
    /\ totalScore entry ==
         sum_reciprocal_ranks (map fst (hits_of id childResults))
    /\ is_maximum (maxScore entry) (map snd (hits_of id childResults)).
Proof.
  intros Hid Hhits. unfold aggregate, hits_of in *.
  rewrite aggregate_from_get by assumption. simpl.
  pose proof (merge_hits_none id childResults 0) as H.
  destruct (hits_of_from id childResults 0); [contradiction | exact H].
Qed.

Lemma aggregate_entry_hits (childResults : list ChildResult) (id : string)
    entry :
  truthy id = true ->
  Map_get id (aggregate childResults) = Some entry ->
  hits_of id childResults <> [].
Proof.
  intros Hid. unfold aggregate, hits_of.
  rewrite aggregate_from_get by assumption. simpl.
  pose proof (merge_hits_none id childResults 0) as H.
  destruct (hits_of_from id childResults 0); [|discriminate].
  rewrite H. discriminate.
Qed.








Section Sorting.

Context {A : Type}.
Variable cmp : A -> A -> Q.
Hypothesis cmp_antisym : forall a b, cmp a b == - cmp b a.




End Sorting.



End RetrievalFacts.

(** ** Retrieval does not see the patient-tagged entries *)

Module PatientBlindness.

Import JS Effects Model Collaborators Retrieval Spec.
Import EffectFacts CollaboratorFacts.
Local Open Scope string_scope.

Lemma blind_ret {A} (a : A) : blind_to_patient_entries (ret a).
Proof. intros w1 w2 H. split; [reflexivity | exact H]. Qed.

Lemma blind_throw {A} (e : string) :
  blind_to_patient_entries (throw (A:=A) e).
Proof. intros w1 w2 H. split; [reflexivity | exact H]. Qed.

Lemma blind_bind {A B} (m : M World A) (k : A -> M World B) :
  blind_to_patient_entries m ->
  (forall a, blind_to_patient_entries (k a)) ->
  blind_to_patient_entries (bind m k).
Proof.
  intros Hm Hk w1 w2 H. unfold bind.
  destruct (Hm w1 w2 H) as [Ho Hw].
  destruct (m w1) as [o1 w1'], (m w2) as [o2 w2']. simpl in *. subst o2.
  destruct o1 as [a | e |]; [apply Hk; assumption | |]; split; auto.
Qed.

Lemma blind_try_catch {A} (body : M World A) (handler : string -> M World A) :
  blind_to_patient_entries body ->
  (forall e, blind_to_patient_entries (handler e)) ->
  blind_to_patient_entries (try_catch body handler).
Proof.
  intros Hb Hh w1 w2 H. unfold try_catch.
  destruct (Hb w1 w2 H) as [Ho Hw].
  destruct (body w1) as [o1 w1'], (body w2) as [o2 w2']. simpl in *. subst o2.
  destruct o1 as [a | e |]; [| apply Hh; assumption |]; split; auto.
Qed.

Lemma blind_mapM {A B} (f : A -> M World B) :
  (forall x, blind_to_patient_entries (f x)) ->
  forall xs, blind_to_patient_entries (mapM f xs).
Proof.
  intros Hf. induction xs as [|x xs IH]; simpl.
  - apply blind_ret.
  - apply blind_bind; [apply Hf | intros y].
    apply blind_bind; [apply IH | intros ys; apply blind_ret].
Qed.

Lemma blind_console_log msg : blind_to_patient_entries (console_log msg).
Proof.
  intros w1 w2 (Hd & Hp & Hr & Hc & Hk & Hg). split; [reflexivity|].
  unfold same_but_patient_entries, general_entries in *. simpl.
  rewrite Hc. auto 10.
Qed.

Lemma blind_console_error msg : blind_to_patient_entries (console_error msg).
Proof.
  intros w1 w2 (Hd & Hp & Hr & Hc & Hk & Hg). split; [reflexivity|].
  unfold same_but_patient_entries, general_entries in *. simpl.
  rewrite Hc. auto 10.
Qed.

Section WithEnv.

Variable env : Env.

Lemma blind_external {A} (c : Call) (op : M World A) :
  blind_to_patient_entries op -> blind_to_patient_entries (external env c op).
Proof.
  intros Hop w1 w2 H. unfold external.
  assert (H' : same_but_patient_entries
                 (with_calls (calls w1 ++ [c]) w1)
                 (with_calls (calls w2 ++ [c]) w2)).
  { destruct H as (Hd & Hp & Hr & Hc & Hk & Hg).
    unfold same_but_patient_entries, general_entries in *. simpl.
    rewrite Hk. auto 10. }
  destruct H as (_ & _ & _ & _ & Hk & _). rewrite Hk in *.
  destruct (faults env _); [split; [reflexivity | exact H'] | now apply Hop].
Qed.

Lemma blind_gets {A} (f : World -> A) :
  (forall w1 w2, same_but_patient_entries w1 w2 -> f w1 = f w2) ->
  blind_to_patient_entries (gets f).
Proof.
  intros Hf w1 w2 H. unfold gets. simpl. split; [|exact H].
  f_equal. now apply Hf.
Qed.

(** The filter of [searchVectorDatabase] lets no patient-tagged entry
    through. *)
Lemma build_filter_excludes_patient (typeFilter : TypeFilter)
    (md : Metadata) :
  filter_matches (Some (build_filter typeFilter)) md = true ->
  md_type md = Some "medicine" \/ md_type md = Some "disease".
Proof.
  destruct typeFilter; simpl; destruct (md_type md) as [t|];
    try discriminate.
  - intros H. apply String.eqb_eq in H. subst. now left.
  - intros H. apply String.eqb_eq in H. subst. now right.
  - unfold mem_string. simpl. rewrite !orb_false_r.
    intros H. apply orb_true_iff in H.
    destruct H as [H | H]; apply String.eqb_eq in H; subst; auto.
Qed.

Lemma filter_through {A} (p q : A -> bool) (l : list A) :
  (forall x, p x = true -> q x = true) ->
  filter p l = filter p (filter q l).
Proof.
  intros Hpq. induction l as [|x l IH]; simpl; [reflexivity|].
  destruct (p x) eqn:Hp.
  - rewrite (Hpq x Hp). simpl. now rewrite Hp, IH.
  - destruct (q x); simpl; [rewrite Hp|]; exact IH.
Qed.

Lemma filter_general_entries (typeFilter : TypeFilter)
    (idx : list VectorEntry) :
  filter (fun v => filter_matches (Some (build_filter typeFilter))
                     (ve_metadata v)) idx =
  filter (fun v => filter_matches (Some (build_filter typeFilter))
                     (ve_metadata v))
    (filter (fun v => negb (is_patient_entry v)) idx).
Proof.
  apply filter_through. intros v Hm.
  apply build_filter_excludes_patient in Hm.
  unfold is_patient_entry. destruct Hm as [-> | ->]; reflexivity.
Qed.

Lemma blind_index_query vector topK typeFilter :
  blind_to_patient_entries
    (index_query env vector topK (Some (build_filter typeFilter))).
Proof.
  unfold index_query. apply blind_external. apply blind_gets.
  intros w1 w2 (_ & _ & _ & _ & _ & Hg). unfold general_entries in Hg.
  rewrite (filter_general_entries typeFilter (pinecone w1)),
          (filter_general_entries typeFilter (pinecone w2)), Hg.
  reflexivity.
Qed.

Lemma blind_voyage_embed input t :
  blind_to_patient_entries (voyage_embed env input t).
Proof. apply blind_external, blind_ret. Qed.

Lemma blind_voyage_rerank q docs k :
  blind_to_patient_entries (voyage_rerank env q docs k).
Proof. apply blind_external, blind_ret. Qed.

Lemma blind_parentChunk_findMany ids :
  blind_to_patient_entries (parentChunk_findMany env ids).
Proof.
  apply blind_external, blind_gets.
  intros w1 w2 (_ & Hp & _). now rewrite Hp.
Qed.

End WithEnv.

Ltac blind_step :=
  first
    [ apply blind_ret | apply blind_throw
    | apply blind_console_log | apply blind_console_error
    | apply blind_index_query | apply blind_voyage_embed
    | apply blind_voyage_rerank | apply blind_parentChunk_findMany
    | assumption
    | progress cbv zeta
    | apply blind_bind; [|intro]
    | apply blind_try_catch; [|intro]
    | apply blind_mapM; intros
    | match goal with
      | |- blind_to_patient_entries (if ?b then _ else _) => destruct b
      | |- blind_to_patient_entries (match ?x with _ => _ end) => destruct x
      end ].

Section Composite.

Variable env : Env.

Lemma blind_querySimilarDocuments query topK typeFilter :
  blind_to_patient_entries
    (querySimilarDocuments env query topK (Some (build_filter typeFilter))).
Proof. unfold querySimilarDocuments. repeat blind_step. Qed.

Lemma blind_getParentTexts ids :
  blind_to_patient_entries (getParentTexts env ids).
Proof. unfold getParentTexts. repeat blind_step. Qed.

Lemma blind_rerankDocuments query docs topK :
  blind_to_patient_entries (rerankDocuments env query docs topK).
Proof. unfold rerankDocuments. repeat blind_step. Qed.

End Composite.

End PatientBlindness.

(** ** The fallbacks of retrieval *)

Module FallbackFacts.

Import JS Effects Model Collaborators Retrieval Spec.
Import EffectFacts CollaboratorFacts RetrievalRuns.
Local Open Scope string_scope.

Section WithEnv.

Variable env : Env.

Lemma rerankDocuments_nothing query docs w :
  reranker_gives_nothing env query docs w ->
  fst (rerankDocuments env query docs None w) = Ok [].
Proof.
  intros H. unfold rerankDocuments, try_catch.
  destruct docs as [|doc docs]; [reflexivity|].
  cbn [List.length Nat.eqb].
  erewrite bind_value by apply console_log_run.
  unfold bind, voyage_rerank, external. cbn [calls with_console].
  destruct H as [H | [H | H]].
  - rewrite H. reflexivity.
  - destruct (faults env _); [reflexivity|]. cbn in *. rewrite H. reflexivity.
  - destruct (faults env _); [reflexivity|]. cbn in *. rewrite H. reflexivity.
Qed.

Lemma length_zero {A} (l : list A) : (List.length l =? 0)%nat = true -> l = [].
Proof. destruct l; [reflexivity | discriminate]. Qed.

Lemma sentinel_run {A} (body : M World A) (msg : string) (sentinel : A) :
  comes_back body ->
  forall w,
    (exists a w', try_catch body
                    (fun _ => bind (console_error msg)
                                (fun _ => ret sentinel)) w = (Ok a, w'))
    /\ (forall e, fst (body w) = Throw e ->
        fst (try_catch body
               (fun _ => bind (console_error msg) (fun _ => ret sentinel)) w)
        = Ok sentinel).
Proof.
  intros Hb w. specialize (Hb w). unfold try_catch.
  destruct (body w) as [[a | e |] w']; simpl in *.
  - split; [now exists a, w' | discriminate].
  - split; [eexists _, _; reflexivity | reflexivity].
  - congruence.
Qed.

End WithEnv.

End FallbackFacts.

(** * The claims *)

Module Claims.

Import JS Splitter Effects Model Collaborators Ingestion Retrieval.
Import Spec Examples.
Import SplitterFacts EffectFacts CollaboratorFacts IngestionFacts.
Import RetrievalRuns IngestionRuns RetrievalFacts PatientBlindness.
Import FallbackFacts.
Local Open Scope string_scope.

(** ** The splitter *)

(** C2. For every text and every [maxLength] of at least 1,
    [textSplitterForRag] returns, and the concatenation of the segments it
    returns, in order, is the text itself. *)
Theorem textSplitterForRag_join (text : string) (maxLength : Z) :
  (1 <= maxLength)%Z ->
  exists segs,
    textSplitterForRag text maxLength = Some segs /\ join segs = text.
Proof.
  intros _. unfold textSplitterForRag.
  destruct (splitByHeader_returns maxLength (List.length headers) text 0)
    as [segs Hsegs]; [lia|].
  exists segs. split; [exact Hsegs|].
  now apply splitByHeader_join in Hsegs.
Qed.

Lemma textSplitterForRag_join_witness :
  (1 <= 12)%Z
  /\ exists segs,
       textSplitterForRag sample_text 12 = Some segs
       /\ join segs = sample_text.
Proof.
  split; [lia | apply (textSplitterForRag_join sample_text 12); lia].
Defined.

(** C9. [textSplitterForRag] returns for every text and every [maxLength]
    with at most four nested recursive calls of [splitByHeader], one per
    heading level: a call at a level from the fourth on returns its content
    as it is; both recursive calls of a call at a lower level (the one taken
    when no split occurs, and the one on an oversized piece) are at the next
    level; so a call returns whenever the nesting allowed covers the levels
    left. The bound is reached: with three nested calls allowed, a text with
    no heading that is longer than [maxLength] is not finished. *)
Theorem splitByHeader_terminates_within_four_levels :
  List.length headers = 4%nat
  /\ (forall text maxLength,
        exists segs, textSplitterForRag text maxLength = Some segs)
  /\ (forall depth maxLength content headerLevel,
        (List.length headers <= depth + headerLevel)%nat ->
        exists segs,
          splitByHeader depth maxLength content headerLevel = Some segs)
  /\ (forall depth maxLength content headerLevel,
        (List.length headers <= headerLevel)%nat ->
        splitByHeader depth maxLength content headerLevel = Some [content])
  /\ (forall depth maxLength content headerLevel,
        (len content <=? maxLength)%Z = false ->
        (headerLevel < List.length headers)%nat ->
        splitByHeader (S depth) maxLength content headerLevel =
          let recurse c :=
            splitByHeader depth maxLength c (headerLevel + 1) in
          let parts :=
            split_lookahead (nth headerLevel headers "") content in
          if (List.length parts =? 1)%nat then recurse content
          else accumulate_parts recurse maxLength parts [] "")
  /\ splitByHeader 3 0 "a" 0 = None.
Proof.
  split; [reflexivity|]. split; [|split; [|split; [|split]]].
  - intros text maxLength. unfold textSplitterForRag.
    apply splitByHeader_returns. lia.
  - intros depth maxLength. apply splitByHeader_returns.
  - intros. now apply splitByHeader_exhausted.
  - intros. now apply splitByHeader_step.
  - reflexivity.
Qed.

Lemma splitByHeader_terminates_within_four_levels_witness :
  (List.length headers <= 2 + 2)%nat
  /\ exists segs, splitByHeader 2 5 sample_text 2 = Some segs.
Proof.
  destruct splitByHeader_terminates_within_four_levels
    as (_ & _ & Hreturns & _).
  split; [simpl; lia | apply Hreturns; simpl; lia].
Defined.

(** ** Ingestion *)

(** C4. When the lookup of the document answers with a row whose
    [isIngested] flag is true, [embedAndStoreDocument] and
    [embedAndStorePatientDocument] return true, the three tables and the
    vector index are left exactly as they were, and the lookup is the only
    call made to a collaborator. *)
Theorem ingest_of_ingested_document_writes_nothing
    (env : Env) (documentId content documentTitle patientId : string)
    (w : World) (d : Document) :
  fst (document_findUnique env documentId w) = Ok (Some d) ->
  doc_isIngested d = true ->
  let run := embedAndStoreDocument env documentId content documentTitle w in
  let run' :=
    embedAndStorePatientDocument env documentId content documentTitle
      patientId w in
  (fst run = Ok true
   /\ stores (snd run) = stores w
   /\ calls (snd run) = (calls w ++ [DocumentFindUnique])%list)
  /\ (fst run' = Ok true
      /\ stores (snd run') = stores w
      /\ calls (snd run') = (calls w ++ [DocumentFindUnique])%list).
Proof.
  intros Hlookup Hflag.
  assert (H : forall v,
    let run := ingest env v documentId content documentTitle w in
    fst run = Ok true
    /\ stores (snd run) = stores w
    /\ calls (snd run) = (calls w ++ [DocumentFindUnique])%list).
  { intros v. unfold ingest, ingest_body, try_catch, bind.
    unfold document_findUnique, external, gets in *.
    destruct (faults env (List.length (calls w))); [discriminate|].
    simpl in Hlookup. injection Hlookup as Hfind.
    cbn. rewrite Hfind. cbn. rewrite Hflag. cbn. auto. }
  split; apply H.
Qed.

Lemma ingest_of_ingested_document_writes_nothing_witness :
  let d := {| doc_id := "d1"; doc_isIngested := true;
              doc_ragSubtype := Some DISEASE |} in
  fst (document_findUnique env_ok "d1" world_ingested) = Ok (Some d)
  /\ doc_isIngested d = true
  /\ fst (embedAndStoreDocument env_ok "d1" sample_text "Doc" world_ingested)
     = Ok true
  /\ stores (snd (embedAndStoreDocument env_ok "d1" sample_text "Doc"
                    world_ingested)) = stores world_ingested.
Proof.
  cbv zeta. split; [reflexivity|]. split; [reflexivity|].
  destruct (@ingest_of_ingested_document_writes_nothing env_ok "d1"
              sample_text "Doc" "p1" world_ingested
              {| doc_id := "d1"; doc_isIngested := true;
                 doc_ragSubtype := Some DISEASE |} eq_refl eq_refl)
    as [(H1 & H2 & _) _].
  split; assumption.
Defined.

Lemma ingest_of_empty_text
    (env : Env) (v : Variant) (documentId documentTitle : string)
    (w : World) (d : Document) :
  let n := List.length (calls w) in
  let run := ingest env v documentId "" documentTitle w in
  fst (document_findUnique env documentId w) = Ok (Some d) ->
  doc_isIngested d = false ->
  faults env (n + 1) = false ->
  faults env (n + 2) = false ->
  faults env (n + 3) = false ->
  filter (fun p => String.eqb (pc_documentId p) documentId)
    (parentChunks (snd run)) =
  [{| pc_id := idSupply env (n + 4); pc_documentId := documentId;
      pc_parentIndex := 0; pc_parentText := "" |}].
Proof.
  intros n run Hlookup Hflag Hdel1 Hdel2 Hcreate.
  subst run. unfold ingest, ingest_body.
  change (textSplitterForRag "" default_maxLength) with (Some [""]).
  unfold document_findUnique, external, gets in Hlookup.
  destruct (faults env (List.length (calls w))) eqn:Hf0; [discriminate|].
  simpl in Hlookup. injection Hlookup as Hfind.
  erewrite try_catch_bind_value
    by (apply (@document_findUnique_run env documentId w n);
        [reflexivity | assumption]).
  rewrite Hfind. cbn [isIngested]. rewrite Hflag.
  erewrite try_catch_bind_value by apply console_log_run.
  match goal with |- context [try_catch (bind (ragChunk_deleteMany env _) _) _ ?w0] =>
    destruct (@ragChunk_deleteMany_run env documentId w0 (n + 1))
      as (w2 & E2 & D2 & P2 & C2);
      [cbn; rewrite length_app; cbn; lia | assumption |] end.
  erewrite try_catch_bind_value by exact E2.
  destruct (@parentChunk_deleteMany_run env documentId w2 (n + 2))
      as (w3 & E3 & D3 & P3 & C3);
      [rewrite C2; cbn; rewrite !length_app; cbn; lia | assumption |].
  erewrite try_catch_bind_value by exact E3.
  destruct (@processSingleParent_creates_row env v (Some d) documentId
              documentTitle "" 0 w3 (n + 3))
    as (w4 & E4 & P4).
  - rewrite C3, C2. cbn. rewrite !length_app. cbn. lia.
  - assumption.
  - apply (@find_has_document documentId w3 d). rewrite D3, D2. exact Hfind.
  - rewrite P3. apply none_own_after_delete.
  - erewrite try_catch_bind_value by exact E4.
    cbv beta. cbn [List.length Nat.ltb Nat.leb forEachM].
    match goal with |- context [try_catch ?b ?h w4] =>
      assert (K : keeps parentChunks (try_catch b h)) end.
    { run_steps. }
    rewrite (K w4).
    rewrite P4, P3, filter_app, filter_own_after_delete. cbn.
    rewrite String.eqb_refl.
    replace (n + 3 + 1)%nat with (n + 4)%nat by lia. reflexivity.
Qed.




Lemma splitByHeader_empty (maxLength : Z) :
  forall depth headerLevel,
    (List.length headers <= depth + headerLevel)%nat ->
    splitByHeader depth maxLength "" headerLevel = Some [""].
Proof.
  induction depth as [|depth IH]; intros headerLevel Hdepth.
  - apply splitByHeader_exhausted. lia.
  - destruct (splitByHeader_cases (S depth) maxLength "" headerLevel)
      as [H | [Hlevel H]]; [exact H|].
    rewrite H. unfold split_lookahead.
    rewrite headers_nonempty by assumption.
    cbn [List.length Nat.eqb recurse_at]. apply IH. lia.
Qed.

(** C10. [textSplitterForRag] returns at least one segment for every text
    and every [maxLength], and the single segment [""] for the empty text;
    so the list tested by the zero-segment branch of ingestion is never
    empty. Ingesting the empty text for a document that is there and not
    ingested, with the lookup, the two cleanup deletes and the creation of
    the parent row not made to fail, leaves exactly one ParentChunk row for
    the document: index 0, empty text. *)
Theorem textSplitterForRag_never_empty :
  (forall text maxLength,
     exists first remaining,
       textSplitterForRag text maxLength = Some (first :: remaining))
  /\ (forall maxLength, textSplitterForRag "" maxLength = Some [""])
  /\ (forall content, textSplitterForRag content default_maxLength <> Some [])
  /\ (forall (env : Env) (v : Variant) (documentId documentTitle : string)
             (w : World) (d : Document),
        let n := List.length (calls w) in
        let run := ingest env v documentId "" documentTitle w in
        fst (document_findUnique env documentId w) = Ok (Some d) ->
        doc_isIngested d = false ->
        faults env (n + 1) = false ->
        faults env (n + 2) = false ->
        faults env (n + 3) = false ->
        filter (fun p => String.eqb (pc_documentId p) documentId)
          (parentChunks (snd run)) =
        [{| pc_id := idSupply env (n + 4); pc_documentId := documentId;
            pc_parentIndex := 0; pc_parentText := "" |}]).
Proof.
  split; [|split; [|split]].
  - apply textSplitterForRag_returns.
  - intros maxLength. unfold textSplitterForRag.
    apply splitByHeader_empty. lia.
  - intros content.
    destruct (textSplitterForRag_returns content default_maxLength)
      as (first & remaining & ->).
    discriminate.
  - intros env v documentId documentTitle w d n run H1 H2 H3 H4 H5.
    exact (@ingest_of_empty_text env v documentId documentTitle w d
             H1 H2 H3 H4 H5).
Qed.

Lemma textSplitterForRag_never_empty_witness :
  textSplitterForRag "" default_maxLength = Some [""]
  /\ filter (fun p => String.eqb (pc_documentId p) "d1")
       (parentChunks
          (snd (embedAndStoreDocument env_ok "d1" "" "Doc" world_new))) =
     [{| pc_id := "pc4"; pc_documentId := "d1"; pc_parentIndex := 0;
         pc_parentText := "" |}].
Proof.
  destruct textSplitterForRag_never_empty as (_ & Hempty & _ & Hrow).
  split; [apply Hempty|].
  apply (Hrow env_ok document_variant "d1" "Doc" world_new
           {| doc_id := "d1"; doc_isIngested := false;
              doc_ragSubtype := Some DISEASE |});
    reflexivity.
Defined.

(** C8. Whatever the collaborators answer and whichever of their calls
    throw, [embedAndStoreDocument], [embedAndStorePatientDocument],
    [deleteDocumentVectors] and [searchVectorDatabase] return a value: no
    exception leaves them and they do not diverge. When the [try] block of
    one of the first three throws, the function returns false; when that of
    [searchVectorDatabase] throws, it returns the empty list. *)
Theorem public_functions_never_throw
    (env : Env) (documentId content documentTitle patientId query : string)
    (topK : nat) (typeFilter : TypeFilter) (w : World) :
  ((exists b w',
      embedAndStoreDocument env documentId content documentTitle w
      = (Ok b, w'))
   /\ (forall e,
         fst (ingest_body env document_variant documentId content
                documentTitle w) = Throw e ->
         fst (embedAndStoreDocument env documentId content documentTitle w)
         = Ok false))
  /\ ((exists b w',
         embedAndStorePatientDocument env documentId content documentTitle
           patientId w = (Ok b, w'))
      /\ (forall e,
            fst (ingest_body env (patient_variant patientId) documentId
                   content documentTitle w) = Throw e ->
            fst (embedAndStorePatientDocument env documentId content
                   documentTitle patientId w) = Ok false))
  /\ ((exists b w', deleteDocumentVectors env documentId w = (Ok b, w'))
      /\ (forall e,
            fst (deleteDocumentVectors_body env documentId w) = Throw e ->
            fst (deleteDocumentVectors env documentId w) = Ok false))
  /\ ((exists r w',
         searchVectorDatabase env query topK typeFilter w = (Ok r, w'))
      /\ (forall e,
            truthy (trim query) = true ->
            fst (searchVectorDatabase_body env query topK typeFilter w)
            = Throw e ->
            fst (searchVectorDatabase env query topK typeFilter w) = Ok [])).
Proof.
  split; [|split; [|split]].
  - apply sentinel_run, ingest_body_comes_back.
  - apply sentinel_run, ingest_body_comes_back.
  - apply sentinel_run, deleteDocumentVectors_body_comes_back.
  - unfold searchVectorDatabase.
    destruct (truthy (trim query)); cbn [negb].
    + destruct (@sentinel_run _
                  (searchVectorDatabase_body env query topK typeFilter)
                  "Error searching vector database:" []
                  (@searchVectorDatabase_body_comes_back env query topK
                     typeFilter) w)
        as [H1 H2].
      split; [exact H1 | intros e _ He; now apply (H2 e)].
    + split; [eexists _, _; reflexivity | discriminate].
Qed.

Lemma public_functions_never_throw_witness :
  fst (deleteDocumentVectors_body env_ok "d1" world_general)
    = Throw "Record to update not found"
  /\ fst (deleteDocumentVectors env_ok "d1" world_general) = Ok false.
Proof.
  destruct (public_functions_never_throw env_ok "d1" sample_text "Doc" "p1"
              "fever" 50 all world_general)
    as (_ & _ & [_ Hdelete] & _).
  split; [reflexivity | apply (Hdelete "Record to update not found")].
  reflexivity.
Defined.

(** ** Retrieval *)

(** C1. For every query, [topK] and [typeFilter], the metadata filter that
    [searchVectorDatabase] builds matches only entries tagged "medicine" or
    "disease", hence no entry tagged "patient"; and from two states that
    differ only in patient-tagged vector entries, [searchVectorDatabase]
    returns the same result (and leaves two states that again differ only
    there). *)
Theorem searchVectorDatabase_blind_to_patient_entries
    (env : Env) (query : string) (topK : nat) (typeFilter : TypeFilter)
    (w1 w2 : World) :
  same_but_patient_entries w1 w2 ->
  (forall v,
     filter_matches (Some (build_filter typeFilter)) (ve_metadata v) = true ->
     (md_type (ve_metadata v) = Some "medicine"
      \/ md_type (ve_metadata v) = Some "disease")
     /\ is_patient_entry v = false)
  /\ fst (searchVectorDatabase env query topK typeFilter w1)
     = fst (searchVectorDatabase env query topK typeFilter w2)
  /\ same_but_patient_entries
       (snd (searchVectorDatabase env query topK typeFilter w1))
       (snd (searchVectorDatabase env query topK typeFilter w2)).
Proof.
  intros Hsame. split.
  - intros v Hv. apply build_filter_excludes_patient in Hv.
    split; [exact Hv|].
    unfold is_patient_entry. destruct Hv as [-> | ->]; reflexivity.
  - revert w1 w2 Hsame.
    change (blind_to_patient_entries
              (searchVectorDatabase env query topK typeFilter)).
    unfold searchVectorDatabase, searchVectorDatabase_body.
    repeat first
      [ apply blind_querySimilarDocuments
      | apply blind_getParentTexts
      | apply blind_rerankDocuments
      | blind_step ].
Qed.

Lemma searchVectorDatabase_blind_to_patient_entries_witness :
  same_but_patient_entries world_with_patient world_general
  /\ pinecone world_with_patient <> pinecone world_general
  /\ fst (searchVectorDatabase env_ok "fever" 50 all world_with_patient)
     = fst (searchVectorDatabase env_ok "fever" 50 all world_general).
Proof.
  assert (H : same_but_patient_entries world_with_patient world_general)
    by (repeat split; reflexivity).
  split; [exact H|]. split; [discriminate|].
  apply (searchVectorDatabase_blind_to_patient_entries env_ok "fever" 50 all
           world_with_patient world_general H).
Defined.

(** C3. After aggregation of the child-hit list, the entry of a parent id
    has as [totalScore] the sum of 1 / (i + 60) over the zero-based ranks i
    of the hits of that parent, and as [maxScore] the greatest raw
    similarity score of those hits; so when parent A has more hits than
    parent B and its k-th hit ranks at least as well as the k-th hit of B,
    the [totalScore] of B is at most that of A. *)
Theorem aggregate_total_and_max
    (childResults : list ChildResult) (idA idB : string)
    (entryA entryB : ParentScore) :
  Map_get idA (aggregate childResults) = Some entryA ->
  Map_get idB (aggregate childResults) = Some entryB ->
  let hitsA := hits_of idA childResults in
  let hitsB := hits_of idB childResults in
  (hitsA <> []
   /\ totalScore entryA == sum_reciprocal_ranks (map fst hitsA)
   /\ is_maximum (maxScore entryA) (map snd hitsA))
  /\ (dominates (map fst hitsA) (map fst hitsB) ->
      totalScore entryB <= totalScore entryA).
Proof.
  intros GA GB hitsA hitsB.
  pose proof (aggregate_key_truthy _ _ _ GA) as HA.
  pose proof (aggregate_key_truthy _ _ _ GB) as HB.
  assert (NA : hitsA <> []) by (eapply aggregate_entry_hits; eassumption).
  destruct (@aggregate_entry childResults idA) as (eA & GA' & TA & MA);
    [assumption | exact NA |].
  destruct (@aggregate_entry childResults idB) as (eB & GB' & TB & MB);
    [assumption | eapply aggregate_entry_hits; eassumption |].
  rewrite GA in GA'. injection GA' as <-.
  rewrite GB in GB'. injection GB' as <-.
  split; [split; [exact NA | split; [exact TA | exact MA]]|].
  intros Hdom. apply dominates_sum in Hdom. subst hitsA hitsB.
  rewrite TA, TB. exact Hdom.
Qed.

Lemma aggregate_total_and_max_witness :
  let entryA := {| totalScore := 1 / 60 + 1 / 61; maxScore := 9 # 10;
                   ps_documentId := Some "doc";
                   ps_documentTitle := Some "Doc" |} in
  let entryB := {| totalScore := 1 / 62; maxScore := 8 # 10;
                   ps_documentId := Some "doc";
                   ps_documentTitle := Some "Doc" |} in
  Map_get "A" (aggregate small_hits) = Some entryA
  /\ Map_get "B" (aggregate small_hits) = Some entryB
  /\ hits_of "A" small_hits = [(0%nat, 9 # 10); (1%nat, 7 # 10)]
  /\ totalScore entryA == (1 # 60) + (1 # 61)
  /\ is_maximum (9 # 10) [9 # 10; 7 # 10]
  /\ dominates [0; 1]%nat [2]%nat
  /\ totalScore entryB <= totalScore entryA.
Proof.
  cbv zeta.
  destruct (@aggregate_total_and_max small_hits "A" "B"
              {| totalScore := 1 / 60 + 1 / 61; maxScore := 9 # 10;
                 ps_documentId := Some "doc";
                 ps_documentTitle := Some "Doc" |}
              {| totalScore := 1 / 62; maxScore := 8 # 10;
                 ps_documentId := Some "doc";
                 ps_documentTitle := Some "Doc" |}
              eq_refl eq_refl)
    as [(_ & Htotal & Hmax) Hdom].
  assert (D : dominates [0; 1]%nat [2]%nat).
  { split; [simpl; lia|]. simpl. constructor; [lia | constructor]. }
  split; [reflexivity|]. split; [reflexivity|]. split; [reflexivity|].
  split; [exact Htotal|]. split; [exact Hmax|]. split; [exact D|].
  apply Hdom. exact D.
Defined.

(** C5. When the reranker collaborator answers with no result or throws,
    [searchVectorDatabase] returns the candidates it had before reranking
    (the parents kept after aggregation and sorting, with their texts,
    deduplicated by text) unchanged and in the same order; in particular its
    result is not empty when there is a candidate. *)
Theorem searchVectorDatabase_rerank_fallback
    (env : Env) (query : string) (topK : nat) (typeFilter : TypeFilter)
    (w : World) (childResults : list ChildResult) (w1 : World)
    (parentTexts : list (string * string)) (w2 : World) :
  truthy (trim query) = true ->
  querySimilarDocuments env query topK (Some (build_filter typeFilter)) w
    = (Ok childResults, w1) ->
  let sorted := sortedParents (aggregate childResults) in
  getParentTexts env (map fst sorted) w1 = (Ok parentTexts, w2) ->
  let uniqueResults :=
    unique_texts [] (intermediateResults parentTexts sorted) in
  reranker_gives_nothing env query (map parentText uniqueResults) w2 ->
  fst (searchVectorDatabase env query topK typeFilter w) = Ok uniqueResults
  /\ (uniqueResults <> [] ->
      fst (searchVectorDatabase env query topK typeFilter w) <> Ok []).
Proof.
  intros Htrim Hquery sorted Htexts uniqueResults Hrerank.
  assert (H : fst (searchVectorDatabase env query topK typeFilter w)
              = Ok uniqueResults).
  { unfold searchVectorDatabase. rewrite Htrim. cbn [negb].
    unfold try_catch, searchVectorDatabase_body. cbv zeta.
    erewrite bind_value by exact Hquery.
    destruct (List.length childResults =? 0)%nat eqn:Hnone.
    - apply length_zero in Hnone. subst uniqueResults sorted.
      rewrite Hnone. reflexivity.
    - erewrite bind_value by exact Htexts. fold sorted. fold uniqueResults.
      destruct (List.length uniqueResults =? 0)%nat eqn:Hunique.
      + apply length_zero in Hunique. now rewrite Hunique.
      + apply rerankDocuments_nothing in Hrerank.
        destruct (rerankDocuments env query (map parentText uniqueResults)
                    None w2) as [o w3] eqn:Hrun.
        simpl in Hrerank. subst o.
        erewrite bind_value by exact Hrun. reflexivity. }
  split; [exact H|]. intros Hne. rewrite H. congruence.
Qed.

Lemma searchVectorDatabase_rerank_fallback_witness :
  truthy (trim "fever") = true
  /\ reranker_gives_nothing env_ok "fever"
       (map parentText example_candidates) (snd texts_run)
  /\ map parentChunkId example_candidates = ["pA"; "pB"]
  /\ fst (searchVectorDatabase env_ok "fever" 50 all world_general)
     = Ok example_candidates.
Proof.
  assert (R : reranker_gives_nothing env_ok "fever"
                (map parentText example_candidates) (snd texts_run))
    by (right; left; reflexivity).
  split; [reflexivity|]. split; [exact R|]. split; [reflexivity|].
  apply (@searchVectorDatabase_rerank_fallback env_ok "fever" 50 all
           world_general example_childResults (snd hits_run)
           example_parentTexts (snd texts_run)
           eq_refl eq_refl eq_refl R).
Defined.

Lemma cyclic_sorted :
  map fst (sortedParents (aggregate cyclic_hits)) = ["W"; "Z"; "Y"; "X"].
Proof. vm_compute. reflexivity. Qed.


(** The parents of [cyclic_hits] admit no order at all in which every pair
    is as the claim words it: Z must precede Y, Y must precede X and X must
    precede Z. *)
Lemma cyclic_hits_have_no_claimed_order (l : list (string * ParentScore)) :
  Permutation l (aggregate cyclic_hits) ->
  exists i j a b,
    (i < j)%nat /\ nth_error l i = Some a /\ nth_error l j = Some b
    /\ ~ in_claimed_order a b.
Proof.
  intros Hperm.
  assert (Hin : forall e, In e (aggregate cyclic_hits) ->
                exists i, nth_error l i = Some e).
  { intros e He. apply In_nth_error. eapply Permutation_in; [|exact He].
    now symmetry. }
  assert (HZ := Hin (nth 0 (aggregate cyclic_hits) ("", merge_hit None (hit "" 0) 0))).
  assert (HY := Hin (nth 1 (aggregate cyclic_hits) ("", merge_hit None (hit "" 0) 0))).
  assert (HX := Hin (nth 2 (aggregate cyclic_hits) ("", merge_hit None (hit "" 0) 0))).
  destruct HZ as [iz HZ]; [vm_compute; auto|].
  destruct HY as [iy HY]; [vm_compute; auto 6|].
  destruct HX as [ix HX]; [vm_compute; auto 6|].
  set (Z := nth 0 _ _) in *. set (Y := nth 1 _ _) in *.
  set (X := nth 2 _ _) in *.
  assert (NZY : ~ in_claimed_order Y Z).
  { intros [H _]. revert H. vm_compute. intros H. apply H; reflexivity. }
  assert (NYX : ~ in_claimed_order X Y).
  { intros [H _]. revert H. vm_compute. intros H. apply H; reflexivity. }
  assert (NXZ : ~ in_claimed_order Z X).
  { intros [_ H]. revert H. vm_compute. intros H.
    apply H; [discriminate | reflexivity]. }
  assert (DZY : iz <> iy) by (intros ->; rewrite HZ in HY; discriminate).
  assert (DYX : iy <> ix) by (intros ->; rewrite HY in HX; discriminate).
  assert (DXZ : ix <> iz) by (intros ->; rewrite HX in HZ; discriminate).
  destruct (Nat.lt_ge_cases iy iz) as [L1 | L1];
    [now exists iy, iz, Y, Z|].
  destruct (Nat.lt_ge_cases ix iy) as [L2 | L2];
    [now exists ix, iy, X, Y|].
  exists iz, ix, Z, X. repeat split; try assumption. lia.
Qed.


End Claims.
